(** * RcpsptHeuristic: the tournament priority-rule solver (src/src/Solver.cc)

    A shallow embedding of [PrSolver::solve] and of the [Problem] data it
    reads (src/src/Problem.cc).  C++ arrays are total functions from indices
    to values, updated with [upd]; [int] values are [Z] (the instances are far
    below the 32-bit bounds); [double] values are the kernel's binary64
    floats ([PrimFloat]), so that NaN and infinities behave as in the source.
    Every [while] loop carries a fuel argument: running out of fuel, and the
    two undefined reads the source can make (a winner of [-1]), give [Stuck]. *)

From Stdlib Require Import ZArith List Bool Lia QArith Qround Floats Uint63.
From Stdlib Require Import Relations.
Import ListNotations.

Open Scope Z_scope.

(** ** Arrays *)

Definition upd {A : Type} (f : nat -> A) (i : nat) (v : A) : nat -> A :=
  fun j => if Nat.eqb j i then v else f j.

(** Integer range [a, b) of a C++ [for (t = a; t < b; t++)] loop. *)
Definition zrange (a b : Z) : list Z :=
  map (fun n => a + Z.of_nat n) (seq 0 (Z.to_nat (b - a))).

(** ** The problem instance (class [Problem]) *)

Record Problem := mkProblem {
  njobs : nat;
  horizon : Z;
  nresources : nat;
  successors : nat -> list nat;     (** [successors[j][0 .. nsuccessors[j])] *)
  predecessors : nat -> list nat;   (** [std::vector<int> predecessors[j]] *)
  durations : nat -> Z;
  requests : nat -> nat -> Z -> Z;  (** [requests[j][k][t]] *)
  capacities : nat -> Z -> Z        (** [capacities[k][t]] *)
}.

(** [successors[j]] is allocated with [nsuccessors[j]] entries. *)
Definition nsuccessors (P : Problem) (j : nat) : nat := length (successors P j).

Definition sink (P : Problem) : nat := (njobs P - 1)%nat.

(** ** Outcomes *)

(** [Abort] is an early [return false]; [Stuck] is out of fuel or undefined. *)
Inductive res (A : Type) : Type :=
| Ok (a : A)
| Abort
| Stuck.
Arguments Ok {A} a.
Arguments Abort {A}.
Arguments Stuck {A}.

Section Solver.

Variable P : Problem.

(** The resource test shared by the three placement loops: for every
    resource [k < nresources] and offset [t < durations[job]],
    [requests[job][k][t] <= grid[k][start + t]].  The source scans with
    [feasible && ...] and stops at the first violation; the loop raises its
    counter once per such scan, so only this boolean matters. *)
Definition fits (grid : nat -> Z -> Z) (job : nat) (start : Z) : bool :=
  forallb (fun k =>
    forallb (fun t => requests P job k t <=? grid k (start + t))
            (zrange 0 (durations P job)))
    (seq 0 (nresources P)).

(** *** Earliest feasible finish times (lines 55-91) *)

(** The [while (!feasibleFinal)] loop on [ef[job]]. *)
Fixpoint ef_advance (fuel : nat) (job : nat) (e : Z) : res Z :=
  match fuel with
  | O => Stuck
  | S fuel' =>
      let feasible := fits (capacities P) job (e - durations P job) in
      let e' := if feasible then e else e + 1 in
      if horizon P <? e' then Abort
      else if feasible then Ok e' else ef_advance fuel' job e'
  end.

(** [for i < nsuccessors[job]]: [f = ef[job] + durations[successor]]. *)
Definition ef_relax (job : nat) (ef : nat -> Z) : nat -> Z :=
  fold_left (fun ef s =>
      let f := ef job + durations P s in
      if ef s <? f then upd ef s f else ef)
    (successors P job) ef.

Fixpoint ef_loop (fuel : nat) (q : list nat) (ef : nat -> Z) : res (nat -> Z) :=
  match fuel with
  | O => Stuck
  | S fuel' =>
      match q with
      | [] => Ok ef
      | job :: q' =>
          match ef_advance fuel' job (ef job) with
          | Ok e => ef_loop fuel' (q' ++ successors P job) (ef_relax job (upd ef job e))
          | Abort => Abort
          | Stuck => Stuck
          end
      end
  end.

Definition ef_pass (fuel : nat) : res (nat -> Z) := ef_loop fuel [0%nat] (fun _ => 0).

(** *** Latest feasible start times (lines 95-132) *)

Fixpoint ls_advance (fuel : nat) (job : nat) (l : Z) : res Z :=
  match fuel with
  | O => Stuck
  | S fuel' =>
      let feasible := fits (capacities P) job l in
      let l' := if feasible then l else l - 1 in
      if l' <? 0 then Abort
      else if feasible then Ok l' else ls_advance fuel' job l'
  end.

(** [for (int predecessor : predecessors[job])]: [s = ls[job] - durations[predecessor]]. *)
Definition ls_relax (job : nat) (ls : nat -> Z) : nat -> Z :=
  fold_left (fun ls p =>
      let s := ls job - durations P p in
      if s <? ls p then upd ls p s else ls)
    (predecessors P job) ls.

Fixpoint ls_loop (fuel : nat) (q : list nat) (ls : nat -> Z) : res (nat -> Z) :=
  match fuel with
  | O => Stuck
  | S fuel' =>
      match q with
      | [] => Ok ls
      | job :: q' =>
          match ls_advance fuel' job (ls job) with
          | Ok l => ls_loop fuel' (q' ++ predecessors P job) (ls_relax job (upd ls job l))
          | Abort => Abort
          | Stuck => Stuck
          end
      end
  end.

Definition ls_pass (fuel : nat) : res (nat -> Z) :=
  ls_loop fuel [sink P] (fun _ => horizon P).

(** *** Extended resource utilisation (lines 136-164) *)

Local Open Scope float_scope.

(** [(double)] of an [int]. *)
Definition zf (z : Z) : float :=
  if (z <? 0)%Z then - of_uint63 (Uint63.of_Z (- z)) else of_uint63 (Uint63.of_Z z).

(** [OMEGA1 = 0.4] and [OMEGA2 = 0.6], as binary64 values. *)
Definition OMEGA1 : float := 0x1.999999999999ap-2.
Definition OMEGA2 : float := 0x1.3333333333333p-1.

Definition zsum (l : list Z) : Z := fold_right Z.add 0%Z l.

Definition demand (job : nat) : Z :=
  zsum (map (fun k => zsum (map (requests P job k) (zrange 0 (durations P job))))
            (seq 0 (nresources P))).

(** The window from earliest start to latest finish. *)
Definition availability (ef ls : nat -> Z) (job : nat) : Z :=
  zsum (map (fun k => zsum (map (capacities P k)
                (zrange (ef job - durations P job) (ls job + durations P job))))
            (seq 0 (nresources P))).

(** Lines 155-159.  The successor loop indexes [ru] by its counter
    [successor = 0 .. nsuccessors[job]-1], as the source does. *)
Definition ru_step (ef ls : nat -> Z) (job : nat) (ru : nat -> float) : nat -> float :=
  let base := OMEGA1 * ((zf (Z.of_nat (nsuccessors P job)) / zf (Z.of_nat (nresources P))) *
                        (zf (demand job) / zf (availability ef ls job))) in
  let ru1 := upd ru job base in
  let ru2 := fold_left (fun ru successor => upd ru job (ru job + OMEGA2 * ru successor))
               (seq 0 (nsuccessors P job)) ru1 in
  if is_nan (ru2 job) || (ru2 job <? 0) then upd ru2 job 0 else ru2.

Fixpoint ru_loop (fuel : nat) (ef ls : nat -> Z) (q : list nat) (ru : nat -> float)
  : res (nat -> float) :=
  match fuel with
  | O => Stuck
  | S fuel' =>
      match q with
      | [] => Ok ru
      | job :: q' => ru_loop fuel' ef ls (q' ++ predecessors P job) (ru_step ef ls job ru)
      end
  end.

(** [ru0] is the content of the buffer [new double[njobs]], which the source
    does not initialise. *)
Definition ru_pass (fuel : nat) (ef ls : nat -> Z) (ru0 : nat -> float) : res (nat -> float) :=
  ru_loop fuel ef ls [sink P] ru0.

(** Lines 167-171. *)
Definition cpru (ls : nat -> Z) (ru : nat -> float) (job : nat) : float :=
  zf (horizon P - ls job) * ru job.

Local Close Scope float_scope.

End Solver.

(** ** The tournament passes (lines 173-273) *)

Definition NPASSES : nat := 1000.

(** [INT32_MAX / 2], the initial [bestMakespan]. *)
Definition INT32_MAX_HALF : Z := 1073741823.

(** [-std::numeric_limits<double>::max() / 2.0]. *)
Definition NEG_HALF_MAX : float := (- 0x1.fffffffffffffp+1023 / 2)%float.

(** State of one pass: [schedule], [available], and the buffer [eligible]
    (allocated once, line 182, and never cleared) with the number of draws
    taken so far from [distribution(eng)]. *)
Record pstate := mkPState {
  schedule : nat -> Z;
  available : nat -> Z -> Z;
  elbuf : nat -> nat;
  draws : nat
}.

Section Tournament.

Variable P : Problem.
(** [cpru[job]], computed before the passes. *)
Variable prio : nat -> float.
(** The successive values of [distribution(eng)], each in [0, 1). *)
Variable rng : nat -> Q.

(** Lines 201-209. *)
Definition eligible_list (sched : nat -> Z) : list nat :=
  filter (fun j => (sched j <? 0) && forallb (fun p => 0 <=? sched p) (predecessors P j))
    (seq 1 (njobs P - 1)).

(** [eligible[neligible++] = j]: the first entries are overwritten, the rest
    of the buffer keeps what earlier iterations left in it. *)
Definition write_eligible (buf : nat -> nat) (el : list nat) : nat -> nat :=
  fun i => if Nat.ltb i (length el) then nth i el 0%nat else buf i.

(** [Z = std::max((int)(TOURN_FACTOR * neligible), 2)]; [0.5 * n] is exact
    in binary64 and non-negative, so the truncation is [n / 2]. *)
Definition nsamples (n : nat) : nat := Z.to_nat (Z.max (Z.of_nat n / 2) 2).

(** [(int)(distribution(eng) * neligible)] for a draw [u >= 0]. The draw is
    a rational and the product is taken exactly; the [double] product of the
    source rounds, and agrees with it whenever it is exact (for instance for
    dyadic draws and small [neligible]). *)
Definition choice (u : Q) (n : nat) : Z := Qfloor (u * inject_Z (Z.of_nat n)).

(** Lines 212-215. *)
Definition selection (buf : nat -> nat) (n start : nat) : list nat :=
  map (fun j => buf (Z.to_nat (choice (rng (start + j)) n))) (seq 0 (nsamples n)).

(** Lines 218-226: [winner = -1] is [None]. *)
Definition winner_scan (sel : list nat) : option nat :=
  fst (fold_left (fun acc sjob =>
          if (snd acc <=? prio sjob)%float then (Some sjob, prio sjob) else acc)
        sel (None, NEG_HALF_MAX)).

(** Lines 229-233. *)
Definition finish0 (sched : nat -> Z) (w : nat) : Z :=
  fold_left (fun finish p =>
      let newFinish := sched p + durations P w in
      if finish <? newFinish then newFinish else finish)
    (predecessors P w) (-1).

(** Lines 235-259. *)
Fixpoint place (fuel : nat) (avail : nat -> Z -> Z) (w : nat) (finish : Z) : res Z :=
  match fuel with
  | O => Stuck
  | S fuel' =>
      let feasible := fits P avail w (finish - durations P w) in
      let finish' := if feasible then finish else finish + 1 in
      if horizon P <? finish' then Abort
      else if feasible then Ok finish' else place fuel' avail w finish'
  end.

(** Lines 263-266. *)
Definition consume (avail : nat -> Z -> Z) (w : nat) (finish : Z) : nat -> Z -> Z :=
  fun k t =>
    if Nat.ltb k (nresources P) && (finish - durations P w <=? t) && (t <? finish)
    then avail k t - requests P w k (t - (finish - durations P w))
    else avail k t.

(** One iteration of [for (int i = 1; i < njobs; i++)]. *)
Definition step (fuel : nat) (st : pstate) : res pstate :=
  let el := eligible_list (schedule st) in
  let n := length el in
  let buf := write_eligible (elbuf st) el in
  match winner_scan (selection buf n (draws st)) with
  | None => Stuck
  | Some w =>
      match place fuel (available st) w (finish0 (schedule st) w) with
      | Ok f => Ok (mkPState (upd (schedule st) w f) (consume (available st) w f)
                             buf (draws st + nsamples n))
      | Abort => Abort
      | Stuck => Stuck
      end
  end.

Fixpoint iterate (fuel : nat) (m : nat) (st : pstate) : res pstate :=
  match m with
  | O => Ok st
  | S m' =>
      match step fuel st with
      | Ok st' => iterate fuel m' st'
      | Abort => Abort
      | Stuck => Stuck
      end
  end.

(** Lines 188-196: the per-pass reset. *)
Definition pass_init (buf : nat -> nat) (d : nat) : pstate :=
  mkPState (upd (fun _ => -1) 0 0) (capacities P) buf d.

Definition pass (fuel : nat) (buf : nat -> nat) (d : nat) : res pstate :=
  iterate fuel (njobs P - 1) (pass_init buf d).

Record sstate := mkS {
  bestMakespan : Z;
  out : nat -> Z;
  sbuf : nat -> nat;
  sdraws : nat
}.

Inductive pres :=
| PDone (s : sstate)
| PAbort (s : sstate)
| PStuck.

(** Lines 269-272. *)
Definition keep_best (s : sstate) (st : pstate) : sstate :=
  let mk := schedule st (sink P) in
  if mk <? bestMakespan s
  then mkS mk (fun i => if Nat.ltb i (njobs P) then schedule st i else out s i)
           (elbuf st) (draws st)
  else mkS (bestMakespan s) (out s) (elbuf st) (draws st).

Fixpoint run_passes (fuel : nat) (n : nat) (s : sstate) : pres :=
  match n with
  | O => PDone s
  | S n' =>
      match pass fuel (sbuf s) (sdraws s) with
      | Ok st => run_passes fuel n' (keep_best s st)
      | Abort => PAbort s
      | Stuck => PStuck
      end
  end.

End Tournament.

(** ** [PrSolver::solve] *)

(** [buf0] and [ru0] are the initial contents of the uninitialised buffers
    [eligible] and [ru]; [out0] is the caller's [out] buffer.  [None] when the
    model is stuck; otherwise the returned [bool] and the final [out]. *)
Definition solve (fuel : nat) (P : Problem) (rng : nat -> Q) (buf0 : nat -> nat)
    (ru0 : nat -> float) (out0 : nat -> Z) : option (bool * (nat -> Z)) :=
  match ef_pass P fuel with
  | Stuck => None
  | Abort => Some (false, out0)
  | Ok ef =>
      match ls_pass P fuel with
      | Stuck => None
      | Abort => Some (false, out0)
      | Ok ls =>
          match ru_pass P fuel ef ls ru0 with
          | Ok ru =>
              match run_passes P (cpru P ls ru) rng fuel NPASSES
                      (mkS INT32_MAX_HALF out0 buf0 0) with
              | PDone s => Some (bestMakespan s <=? horizon P, out s)
              | PAbort s => Some (false, out s)
              | PStuck => None
              end
          | _ => None
          end
      end
  end.

(** ** [checkValid] (src/src/Main.cc, lines 37-72) *)

Definition check_precedence (P : Problem) (sol : nat -> Z) : bool :=
  forallb (fun job =>
      forallb (fun p => sol p <=? sol job - durations P job) (predecessors P job))
    (seq 0 (njobs P)).

(** The [(job, k, t)] visits of the resource loop, in order. *)
Definition cv_cells (P : Problem) : list (nat * nat * Z) :=
  flat_map (fun job =>
      flat_map (fun k => map (fun t => (job, k, t)) (zrange 0 (durations P job)))
        (seq 0 (nresources P)))
    (seq 0 (njobs P)).

Fixpoint cv_run (P : Problem) (sol : nat -> Z) (cells : list (nat * nat * Z))
    (avail : nat -> Z -> Z) : bool :=
  match cells with
  | [] => true
  | (job, k, t) :: rest =>
      let curr := sol job - durations P job + t in
      let avail' := fun k' t' =>
        if Nat.eqb k' k && (t' =? curr) then avail k' t' - requests P job k t
        else avail k' t' in
      if avail' k curr <? 0 then false else cv_run P sol rest avail'
  end.

Definition checkValid (P : Problem) (sol : nat -> Z) : bool :=
  check_precedence P sol && cv_run P sol (cv_cells P) (capacities P).

(** ** Instances *)

(** Scenario 3 of the spec: the chain [0 -> 1 -> 2], activity 1 of duration 2
    needing one unit of a resource whose capacity is [0, 1, 1, 0, 0]. *)
Definition chain3 (H : Z) : Problem := mkProblem 3 H 1
  (fun j => match j with O => [1%nat] | S O => [2%nat] | _ => [] end)
  (fun j => match j with S O => [0%nat] | S (S O) => [1%nat] | _ => [] end)
  (fun j => match j with S O => 2 | _ => 0 end)
  (fun j _ _ => match j with S O => 1 | _ => 0 end)
  (fun _ t => if (t =? 1) || (t =? 2) then 1 else 0).

(** Activities 1 (duration 2) and 2 (duration 1) both follow 0 and precede
    the sink 3, each needs one unit of a resource of capacity [1, 1, 0, 1]:
    1 before 2 fits in horizon 4, 2 before 1 does not. *)
Definition order4 : Problem := mkProblem 4 4 1
  (fun j => match j with O => [1%nat; 2%nat] | S O | S (S O) => [3%nat] | _ => [] end)
  (fun j => match j with S O | S (S O) => [0%nat] | S (S (S O)) => [1%nat; 2%nat] | _ => [] end)
  (fun j => match j with S O => 2 | S (S O) => 1 | _ => 0 end)
  (fun j _ _ => match j with S O | S (S O) => 1 | _ => 0 end)
  (fun _ t => if t =? 2 then 0 else 1).

(** Draws of [distribution(eng)]: the first pass (draws 0-5) samples
    activity 1 first, the second pass (from draw 6) samples activity 2 first. *)
Definition order4_rng (i : nat) : Q := if Nat.ltb i 6 then 0%Q else (1 # 2)%Q.

(** Activity 1 has no predecessor: outside the data model. *)
Definition orphan3 : Problem := mkProblem 3 5 0
  (fun j => match j with S O => [2%nat] | _ => [] end)
  (fun j => match j with S (S O) => [1%nat] | _ => [] end)
  (fun j => match j with S O => 2 | _ => 0 end)
  (fun _ _ _ => 0)
  (fun _ _ => 0).

Definition zeros {A : Type} (z : A) : nat -> A := fun _ => z.

(** The chain [0 -> 1 -> 2 -> 3], activities 1 and 2 of duration 1 needing one
    unit of a resource of capacity 1. *)
Definition chain4 : Problem := mkProblem 4 4 1
  (fun j => match j with O => [1%nat] | S O => [2%nat] | S (S O) => [3%nat] | _ => [] end)
  (fun j => match j with S O => [0%nat] | S (S O) => [1%nat] | S (S (S O)) => [2%nat] | _ => [] end)
  (fun j => match j with S O | S (S O) => 1 | _ => 0 end)
  (fun j _ _ => match j with S O | S (S O) => 1 | _ => 0 end)
  (fun _ _ => 1).

(** The utilisation formula of the spec (section 4.3), summing the
    successors' [ru] over [successors(j)], in the source's evaluation order. *)
Definition ru_formula (P : Problem) (ef ls : nat -> Z) (ru : nat -> float) (j : nat) : float :=
  fold_left (fun acc s => (acc + OMEGA2 * ru s)%float) (successors P j)
    (OMEGA1 * ((zf (Z.of_nat (nsuccessors P j)) / zf (Z.of_nat (nresources P))) *
               (zf (demand P j) / zf (availability P ef ls j))))%float.

(** The chain [0 -> 1 -> 2] without resources, activity 1 lasting
    [INT32_MAX / 2] periods, with that horizon: every pass finishes the sink
    at [INT32_MAX / 2], which is not below the initial [bestMakespan]. *)
Definition late3 : Problem := mkProblem 3 INT32_MAX_HALF 0
  (fun j => match j with O => [1%nat] | S O => [2%nat] | _ => [] end)
  (fun j => match j with S O => [0%nat] | S (S O) => [1%nat] | _ => [] end)
  (fun j => match j with S O => INT32_MAX_HALF | _ => 0 end)
  (fun _ _ _ => 0)
  (fun _ _ => 0).

(** The chain [0 -> 1 -> 2 -> 3] with horizon [INT32_MAX / 2]: activity 1
    lasts [INT32_MAX / 2 - 1] periods, activity 2 lasts one period and needs
    one unit of a resource whose capacity is 0 at time 0 and 1 afterwards.
    Every pass finishes the sink at [INT32_MAX / 2]. *)
Definition lateR : Problem := mkProblem 4 INT32_MAX_HALF 1
  (fun j => match j with O => [1%nat] | S O => [2%nat] | S (S O) => [3%nat] | _ => [] end)
  (fun j => match j with S O => [0%nat] | S (S O) => [1%nat] | S (S (S O)) => [2%nat] | _ => [] end)
  (fun j => match j with S O => INT32_MAX_HALF - 1 | S (S O) => 1 | _ => 0 end)
  (fun j _ _ => match j with S (S O) => 1 | _ => 0 end)
  (fun _ t => if t =? 0 then 0 else 1).

(** The [cpru] values of the activities [1..3] of [lateR] are numbers. *)
Definition lateR_prio_ok (prio : nat -> float) : Prop :=
  forall j, (1 <= j <= 3)%nat -> is_nan (prio j) = false /\ (NEG_HALF_MAX <=? prio j)%float = true.

(** The fan [0 -> {1, ..., 6} -> 7] without resources, activities [1..6] of
    duration 1, horizon 10. *)
Definition fan8 : Problem := mkProblem 8 10 0
  (fun j => match j with O => [1%nat; 2%nat; 3%nat; 4%nat; 5%nat; 6%nat]
                     | S (S (S (S (S (S (S _)))))) => [] | _ => [7%nat] end)
  (fun j => match j with O => [] | S (S (S (S (S (S (S _)))))) => [1%nat; 2%nat; 3%nat; 4%nat; 5%nat; 6%nat]
                     | _ => [0%nat] end)
  (fun j => match j with O => 0 | S (S (S (S (S (S (S _)))))) => 0 | _ => 1 end)
  (fun _ _ _ => 0)
  (fun _ _ => 0).

(** Priorities with a tie: activities 2 and 5 share the highest value. *)
Definition fan_prio (j : nat) : float :=
  match j with 2%nat | 5%nat => 0x1p1%float | 1%nat => 0x1p-1%float | _ => 0x1p0%float end.

(** Draws of [distribution(eng)], all dyadic so that [u * neligible] is
    exact in [double] as well. *)
Definition fan_rng (i : nat) : Q :=
  match (i mod 4)%nat with 0%nat => 0%Q | 1%nat => (1 # 4)%Q | 2%nat => (3 # 4)%Q | _ => (1 # 2)%Q end.

(** ** The data model of the spec (section 3) *)

Definition succ_edge (P : Problem) (a b : nat) : Prop := In b (successors P a).

Record wf (P : Problem) : Prop := {
  wf_njobs : (2 <= njobs P)%nat;
  wf_horizon : 0 < horizon P;
  wf_durations : forall j, (j < njobs P)%nat -> 0 <= durations P j;
  wf_source_duration : durations P 0 = 0;
  wf_sink_duration : durations P (sink P) = 0;
  wf_requests : forall j k t, (j < njobs P)%nat -> (k < nresources P)%nat ->
    0 <= t < durations P j -> 0 <= requests P j k t;
  wf_capacities : forall k t, (k < nresources P)%nat -> 0 <= t < horizon P ->
    0 <= capacities P k t;
  wf_successors_range : forall j s, (j < njobs P)%nat -> In s (successors P j) ->
    (s < njobs P)%nat;
  wf_predecessors_range : forall j p, (j < njobs P)%nat -> In p (predecessors P j) ->
    (p < njobs P)%nat;
  wf_adjacency : forall j p, (j < njobs P)%nat -> (p < njobs P)%nat ->
    (In p (predecessors P j) <-> In j (successors P p));
  (** acyclic precedence *)
  wf_acyclic : exists rank : nat -> nat, forall j p, (j < njobs P)%nat ->
    In p (predecessors P j) -> (rank p < rank j)%nat;
  (** 0 is a transitive predecessor of every other activity *)
  wf_source : forall j, (0 < j < njobs P)%nat -> clos_trans nat (succ_edge P) 0%nat j;
  (** the sink is a transitive successor of every other activity *)
  wf_sink : forall j, (j < sink P)%nat -> clos_trans nat (succ_edge P) j (sink P)
}.

(** Resource use of the activities scheduled in [sched] (finish time [>= 0]). *)
Definition usage (P : Problem) (sched : nat -> Z) (k : nat) (t : Z) : Z :=
  zsum (map (fun j =>
      if (0 <=? sched j) && (sched j - durations P j <=? t) && (t <? sched j)
      then requests P j k (t - (sched j - durations P j)) else 0)
    (seq 0 (njobs P))).

(** The sum of the claim: requests of the activities active at [t] under [out]. *)
Definition load (P : Problem) (out : nat -> Z) (k : nat) (t : Z) : Z :=
  zsum (map (fun j =>
      if (out j - durations P j <=? t) && (t <? out j)
      then requests P j k (t - (out j - durations P j)) else 0)
    (seq 0 (njobs P))).

(** The invariant of a tournament pass after [m] iterations. *)
Record pinv (P : Problem) (st : pstate) (m : nat) : Prop := {
  pi_source : schedule st 0 = 0;
  pi_count : length (filter (fun j => 0 <=? schedule st j) (seq 1 (njobs P - 1))) = m;
  pi_prec : forall j, (j < njobs P)%nat -> 0 <= schedule st j ->
    forall p, In p (predecessors P j) ->
      0 <= schedule st p /\ schedule st p <= schedule st j - durations P j;
  pi_avail : forall k t, (k < nresources P)%nat ->
    available st k t = capacities P k t - usage P (schedule st) k t;
  pi_avail_nonneg : forall k t, (k < nresources P)%nat -> 0 <= t < horizon P ->
    0 <= available st k t
}.

(** ** What the preprocessing passes leave for one activity *)

(** Activity [j] fits the capacities in its window [ef[j] - durations[j],
    ef[j]), finishes within the horizon, and every successor [s] has
    [ef[s] >= ef[j] + durations[s]]. *)
Definition ef_good (P : Problem) (ef : nat -> Z) (j : nat) : Prop :=
  fits P (capacities P) j (ef j - durations P j) = true /\ ef j <= horizon P /\
  forall s, In s (successors P j) -> ef j + durations P s <= ef s.

(** Activity [j] fits the capacities from [ls[j]], starts at or after 0,
    and every predecessor [p] has [ls[p] + durations[p] <= ls[j]]. *)
Definition ls_good (P : Problem) (ls : nat -> Z) (j : nat) : Prop :=
  fits P (capacities P) j (ls j) = true /\ 0 <= ls j /\
  forall p, In p (predecessors P j) -> ls p + durations P p <= ls j.

(** ** What [checkValid] subtracts *)

(** The requests that the visits [cells] of the resource loop subtract from
    [available[k][T]]. *)
Definition cv_demand (P : Problem) (sol : nat -> Z) (cells : list (nat * nat * Z))
    (k : nat) (T : Z) : Z :=
  zsum (map (fun c => match c with (job, k', t) =>
      if Nat.eqb k' k && (sol job - durations P job + t =? T) then requests P job k' t else 0
    end) cells).

(** ** The progress report of [findInstancesAndSolveAll] (src/src/Main.cc, lines 80-114) *)

(** After instance [i] of [size] paths, line 112 prints
    [i / (paths.size()/100)] when [i % (paths.size()/100) == 0].  [None] is
    the division by zero when [paths.size()/100 == 0], undefined in C++;
    [Some None] prints nothing. *)
Definition progress (size i : nat) : option (option nat) :=
  let step := (size / 100)%nat in
  if Nat.eqb step 0 then None
  else Some (if Nat.eqb (i mod step) 0 then Some (i / step)%nat else None).

(** The percentages printed by [for (i = 0; i < paths.size(); i++)], when
    every file opens; [None] once an iteration divides by zero.  The rest of
    the loop body (parse, solve, write the results) does not feed this
    expression. *)
Fixpoint progress_loop (size : nat) (l : list nat) : option (list nat) :=
  match l with
  | [] => Some []
  | i :: rest =>
      match progress size i with
      | None => None
      | Some p =>
          match progress_loop size rest with
          | None => None
          | Some ps => Some (match p with Some x => x :: ps | None => ps end)
          end
      end
  end.

Definition progress_run (size : nat) : option (list nat) := progress_loop size (seq 0 size).

(** * Properties *)

(** ** Abort and bounds of the placement loops *)

Lemma ef_advance_abort (P : Problem) fuel job e :
  ef_advance P fuel job e = Abort -> exists e', e <= e' /\ horizon P < e'.
Proof.
  revert e; induction fuel as [|fuel IH]; intros e H; simpl in H; [discriminate|].
  destruct (fits P (capacities P) job (e - durations P job)) eqn:F;
    destruct (horizon P <? _) eqn:E.
  - exists e. split; [lia|]. apply Z.ltb_lt in E; exact E.
  - discriminate.
  - exists (e + 1). split; [lia|]. apply Z.ltb_lt in E; exact E.
  - destruct (IH _ H) as [e' [He' Hh]]. exists e'. split; [lia|exact Hh].
Qed.

Lemma ls_advance_abort (P : Problem) fuel job l :
  ls_advance P fuel job l = Abort -> exists l', l' <= l /\ l' < 0.
Proof.
  revert l; induction fuel as [|fuel IH]; intros l H; simpl in H; [discriminate|].
  destruct (fits P (capacities P) job l) eqn:F; destruct (_ <? 0) eqn:E.
  - exists l. split; [lia|]. apply Z.ltb_lt in E; exact E.
  - discriminate.
  - exists (l - 1). split; [lia|]. apply Z.ltb_lt in E; exact E.
  - destruct (IH _ H) as [l' [Hl' Hn]]. exists l'. split; [lia|exact Hn].
Qed.

(** *** C9 *)

(** Claim C9: when the earliest-finish pass drives some [ef[j]] above the
    horizon, or the latest-start pass drives some [ls[j]] below 0, [solve]
    returns [false] at once, before any tournament pass: [out] is left as
    the caller passed it, whatever the random draws. *)
Theorem solve_preprocessing_abort (fuel : nat) (P : Problem) (rng : nat -> Q)
    (buf0 : nat -> nat) (ru0 : nat -> float) (out0 : nat -> Z) :
  ef_pass P fuel = Abort \/ (exists ef, ef_pass P fuel = Ok ef /\ ls_pass P fuel = Abort) ->
  solve fuel P rng buf0 ru0 out0 = Some (false, out0).
Proof.
  unfold solve. intros [E | [ef [E L]]].
  - rewrite E. reflexivity.
  - rewrite E, L. reflexivity.
Qed.

Lemma solve_preprocessing_abort_witness :
  ef_pass (chain3 2) 100 = Abort /\
  solve 100 (chain3 2) (zeros 0%Q) (zeros 0%nat) (zeros 0%float) (zeros 7) = Some (false, zeros 7).
Proof.
  split.
  - vm_compute. reflexivity.
  - apply solve_preprocessing_abort. left. vm_compute. reflexivity.
Defined.

(** ** Every finish time of a pass stays within the horizon *)

Lemma place_le_horizon (P : Problem) fuel avail w f0 f :
  place P fuel avail w f0 = Ok f -> f <= horizon P.
Proof.
  revert f0; induction fuel as [|fuel IH]; intros f0 H; simpl in H; [discriminate|].
  destruct (fits P avail w (f0 - durations P w)); destruct (horizon P <? _) eqn:E;
    try discriminate.
  - injection H as <-. apply Z.ltb_ge in E. exact E.
  - exact (IH _ H).
Qed.

Lemma step_sched_le (P : Problem) prio rng fuel st st' :
  (forall i, schedule st i <= horizon P) ->
  step P prio rng fuel st = Ok st' -> forall i, schedule st' i <= horizon P.
Proof.
  unfold step. intros Hle H i.
  destruct (winner_scan _ _) as [w|]; [|discriminate].
  destruct (place P fuel (available st) w _) eqn:E; try discriminate.
  injection H as <-. simpl. unfold upd. destruct (Nat.eqb i w).
  - exact (place_le_horizon _ _ _ _ _ _ E).
  - apply Hle.
Qed.

Lemma iterate_sched_le (P : Problem) prio rng fuel m st st' :
  (forall i, schedule st i <= horizon P) ->
  iterate P prio rng fuel m st = Ok st' -> forall i, schedule st' i <= horizon P.
Proof.
  revert st; induction m as [|m IH]; intros st Hle H; simpl in H.
  - injection H as <-. exact Hle.
  - destruct (step P prio rng fuel st) as [st1| |] eqn:E; try discriminate.
    apply (IH st1); [exact (step_sched_le _ _ _ _ _ _ Hle E) | exact H].
Qed.

Lemma pass_sched_le (P : Problem) prio rng fuel buf d st :
  0 <= horizon P -> pass P prio rng fuel buf d = Ok st ->
  forall i, schedule st i <= horizon P.
Proof.
  intros Hh H. refine (iterate_sched_le _ _ _ _ _ _ _ _ H).
  intro i. simpl. unfold upd. destruct (Nat.eqb i 0); lia.
Qed.

Lemma keep_best_le (P : Problem) s st :
  bestMakespan (keep_best P s st) <= bestMakespan s /\
  bestMakespan (keep_best P s st) <= schedule st (sink P).
Proof.
  unfold keep_best. destruct (schedule st (sink P) <? bestMakespan s) eqn:E; simpl.
  - apply Z.ltb_lt in E. lia.
  - apply Z.ltb_ge in E. lia.
Qed.

Lemma run_passes_best_mono (P : Problem) prio rng fuel n s s' :
  run_passes P prio rng fuel n s = PDone s' -> bestMakespan s' <= bestMakespan s.
Proof.
  revert s; induction n as [|n IH]; intros s H; simpl in H.
  - injection H as <-. lia.
  - destruct (pass P prio rng fuel (sbuf s) (sdraws s)) eqn:E; try discriminate.
    pose proof (IH _ H). pose proof (keep_best_le P s a). lia.
Qed.

(** After at least one completed pass the best makespan is within the horizon. *)
Lemma run_passes_best_le (P : Problem) prio rng fuel n s s' :
  0 <= horizon P -> run_passes P prio rng fuel (S n) s = PDone s' ->
  bestMakespan s' <= horizon P.
Proof.
  intros Hh H. simpl in H.
  destruct (pass P prio rng fuel (sbuf s) (sdraws s)) eqn:E; try discriminate.
  pose proof (run_passes_best_mono _ _ _ _ _ _ _ H).
  pose proof (keep_best_le P s a) as [_ K].
  pose proof (pass_sched_le _ _ _ _ _ _ _ Hh E (sink P)). lia.
Qed.

(** *** C3 *)

(** Claim C3, refuted: on [order4] the first pass schedules activity 1
    before 2 and yields a complete schedule that [checkValid] accepts, with
    makespan 4 = horizon, but the second pass draws activity 2 first, cannot
    place activity 1 by the horizon, and the whole call returns [false]. *)
Lemma solve_one_pass_fails_counterexample :
  match ef_pass order4 100, ls_pass order4 100 with
  | Ok ef, Ok ls =>
      match ru_pass order4 100 ef ls (zeros 0%float) with
      | Ok ru =>
          match pass order4 (cpru order4 ls ru) order4_rng 100 (zeros 0%nat) 0 with
          | Ok st =>
              checkValid order4 (schedule st) = true /\
              map (schedule st) (seq 0 4) = [0; 2; 4; 4] /\
              schedule st (sink order4) <= horizon order4
          | _ => False
          end
      | _ => False
      end
  | _, _ => False
  end /\
  match solve 100 order4 order4_rng (zeros 0%nat) (zeros 0%float) (zeros 9) with
  | Some (b, _) => b = false
  | None => False
  end.
Proof.
  vm_compute. repeat split; try reflexivity. discriminate.
Qed.

(** Claim C3, as the code has it: once preprocessing has succeeded, [solve]
    returns [true] exactly when every one of the [NPASSES] passes placed every
    activity by the horizon; one failing pass makes the whole call fail. *)
Theorem solve_true_iff_all_passes_complete (fuel : nat) (P : Problem) (rng : nat -> Q)
    (buf0 : nat -> nat) (ru0 : nat -> float) (out0 : nat -> Z) (b : bool) (o : nat -> Z) :
  0 <= horizon P ->
  solve fuel P rng buf0 ru0 out0 = Some (b, o) ->
  (b = true <->
   exists ef ls ru s,
     ef_pass P fuel = Ok ef /\ ls_pass P fuel = Ok ls /\ ru_pass P fuel ef ls ru0 = Ok ru /\
     run_passes P (cpru P ls ru) rng fuel NPASSES (mkS INT32_MAX_HALF out0 buf0 0) = PDone s).
Proof.
  intros Hh. unfold solve.
  destruct (ef_pass P fuel) as [ef| |] eqn:E1.
  2:{ intros H; inversion H; subst. split; [discriminate|].
      intros (ef&_&_&_&H1&_). discriminate. }
  2:{ discriminate. }
  destruct (ls_pass P fuel) as [ls| |] eqn:E2.
  2:{ intros H; inversion H; subst. split; [discriminate|].
      intros (ef'&ls&_&_&_&H2&_). discriminate. }
  2:{ discriminate. }
  destruct (ru_pass P fuel ef ls ru0) as [ru| |] eqn:E3; try discriminate.
  destruct (run_passes P (cpru P ls ru) rng fuel NPASSES _) as [s|s|] eqn:E4; intros H;
    inversion H; subst; clear H.
  - (* [PDone]: the best makespan is within the horizon *)
    split; [intros _|intros _].
    + exists ef, ls, ru, s. repeat split; assumption.
    + apply Z.leb_le. exact (run_passes_best_le _ _ _ _ _ _ _ Hh E4).
  - split; [discriminate|].
    intros (ef'&ls'&ru'&s'&H1&H2&H3&H4). injection H1 as <-. injection H2 as <-.
    rewrite E3 in H3. injection H3 as <-. congruence.
Qed.

Lemma solve_true_iff_all_passes_complete_witness :
  match solve 100 (chain3 5) (zeros 0%Q) (zeros 0%nat) (zeros 0%float) (zeros 7) with
  | Some (b, o) =>
      b = true /\
      (b = true <->
       exists ef ls ru s,
         ef_pass (chain3 5) 100 = Ok ef /\ ls_pass (chain3 5) 100 = Ok ls /\
         ru_pass (chain3 5) 100 ef ls (zeros 0%float) = Ok ru /\
         run_passes (chain3 5) (cpru (chain3 5) ls ru) (zeros 0%Q) 100 NPASSES
           (mkS INT32_MAX_HALF (zeros 7) (zeros 0%nat) 0) = PDone s)
  | None => False
  end.
Proof.
  destruct (solve 100 (chain3 5) (zeros 0%Q) (zeros 0%nat) (zeros 0%float) (zeros 7))
    as [[b o]|] eqn:E.
  - split.
    + vm_compute in E. injection E as <- _. reflexivity.
    + apply (solve_true_iff_all_passes_complete 100 (chain3 5) (zeros 0%Q) (zeros 0%nat)
               (zeros 0%float) (zeros 7) b o); [simpl; lia | exact E].
  - vm_compute in E. discriminate.
Defined.

(** ** Loop lemmas of a tournament iteration *)

Lemma in_zrange a b t : In t (zrange a b) <-> a <= t < b.
Proof.
  unfold zrange. rewrite in_map_iff. split.
  - intros [n [<- Hn]]. apply in_seq in Hn. lia.
  - intros Ht. exists (Z.to_nat (t - a)). split; [lia|]. apply in_seq. lia.
Qed.

Lemma fits_spec (P : Problem) grid w start :
  fits P grid w start = true <->
  forall k t, (k < nresources P)%nat -> 0 <= t < durations P w ->
    requests P w k t <= grid k (start + t).
Proof.
  unfold fits. rewrite forallb_forall. split.
  - intros H k t Hk Ht.
    assert (Hin : In k (seq 0 (nresources P))) by (apply in_seq; lia).
    specialize (H k Hin).
    rewrite forallb_forall in H. apply Z.leb_le, H, in_zrange. exact Ht.
  - intros H k Hk. apply in_seq in Hk. rewrite forallb_forall. intros t Ht.
    apply in_zrange in Ht. apply Z.leb_le, H; lia.
Qed.

Lemma choice_range (u : Q) (n : nat) :
  (0 <= u)%Q -> (u < 1)%Q -> (0 < n)%nat -> 0 <= choice u n < Z.of_nat n.
Proof.
  intros H0 H1 Hn. unfold choice.
  assert (Hpos : (0 < inject_Z (Z.of_nat n))%Q) by (change 0%Q with (inject_Z 0); rewrite <- Zlt_Qlt; lia).
  split.
  - change 0 with (Qfloor 0). apply Qfloor_resp_le.
    apply Qmult_le_0_compat; [exact H0 | apply Qlt_le_weak; exact Hpos].
  - rewrite Zlt_Qlt. apply Qle_lt_trans with (u * inject_Z (Z.of_nat n))%Q.
    + apply Qfloor_le.
    + rewrite <- (Qmult_1_l (inject_Z (Z.of_nat n))) at 2.
      apply Qmult_lt_compat_r; assumption.
Qed.

Lemma selection_in (rng : nat -> Q) buf el start x :
  (forall i, 0 <= rng i /\ rng i < 1)%Q -> el <> [] ->
  In x (selection rng (write_eligible buf el) (length el) start) -> In x el.
Proof.
  intros Hr Hne Hx. unfold selection in Hx. apply in_map_iff in Hx as [j [<- _]].
  destruct (Hr (start + j)%nat) as [R0 R1].
  assert (Hn : (0 < length el)%nat) by (destruct el; [congruence | simpl; lia]).
  pose proof (choice_range _ _ R0 R1 Hn) as Hc.
  unfold write_eligible.
  assert (Hlt : Nat.ltb (Z.to_nat (choice (rng (start + j)%nat) (length el))) (length el) = true)
    by (apply Nat.ltb_lt; lia).
  rewrite Hlt. apply nth_In. apply Nat.ltb_lt. exact Hlt.
Qed.

Lemma winner_scan_in (prio : nat -> float) sel w :
  winner_scan prio sel = Some w -> In w sel.
Proof.
  unfold winner_scan.
  assert (G : forall l acc, (forall x, fst acc = Some x -> In x sel) ->
            (forall x, In x l -> In x sel) ->
            forall x, fst (fold_left (fun acc sjob =>
                if (snd acc <=? prio sjob)%float then (Some sjob, prio sjob) else acc)
              l acc) = Some x -> In x sel).
  { induction l as [|a l IH]; intros acc Hacc Hl x; simpl.
    - apply Hacc.
    - apply IH.
      + destruct (_ <=? _)%float; simpl; [|exact Hacc].
        intros y Hy. injection Hy as <-. apply Hl. left. reflexivity.
      + intros y Hy. apply Hl. right. exact Hy. }
  apply G; [discriminate | auto].
Qed.

Lemma eligible_list_spec (P : Problem) sched w :
  In w (eligible_list P sched) <->
  (1 <= w < njobs P)%nat /\ sched w < 0 /\
  (forall p, In p (predecessors P w) -> 0 <= sched p).
Proof.
  unfold eligible_list. rewrite filter_In, in_seq, andb_true_iff, Z.ltb_lt, forallb_forall.
  split.
  - intros [Hw [Hs Hp]]. repeat split; try lia.
    intros p Hin. apply Z.leb_le, Hp, Hin.
  - intros [Hw [Hs Hp]]. repeat split; try lia.
    intros p Hin. apply Z.leb_le, Hp, Hin.
Qed.

(** The running maximum of lines 229-233. *)
Lemma finish0_spec (P : Problem) sched w :
  -1 <= finish0 P sched w /\
  (forall p, In p (predecessors P w) -> sched p + durations P w <= finish0 P sched w) /\
  (finish0 P sched w = -1 \/
   exists p, In p (predecessors P w) /\ finish0 P sched w = sched p + durations P w).
Proof.
  unfold finish0.
  assert (G : forall l f, -1 <= f /\ (f = -1 \/ exists p, In p (predecessors P w) /\ f = sched p + durations P w) ->
    (forall p, In p l -> In p (predecessors P w)) ->
    let r := fold_left (fun finish p =>
                let newFinish := sched p + durations P w in
                if finish <? newFinish then newFinish else finish) l f in
    f <= r /\ -1 <= r /\ (forall p, In p l -> sched p + durations P w <= r) /\
    (r = -1 \/ exists p, In p (predecessors P w) /\ r = sched p + durations P w)).
  { induction l as [|a l IH]; intros f Hf Hl; cbv zeta in *; simpl.
    - split; [lia|]. split; [tauto|]. split; [tauto|tauto].
    - destruct (f <? sched a + durations P w) eqn:E.
      + apply Z.ltb_lt in E.
        destruct (IH (sched a + durations P w)) as (R1&R2&R3&R4).
        * split; [lia|]. right. exists a. split; [apply Hl; left; reflexivity|reflexivity].
        * intros p Hp. apply Hl. right. exact Hp.
        * split; [lia|]. split; [exact R2|]. split; [|exact R4].
          intros p [<-|Hp]; [lia|apply R3, Hp].
      + apply Z.ltb_ge in E.
        destruct (IH f Hf) as (R1&R2&R3&R4).
        * intros p Hp. apply Hl. right. exact Hp.
        * split; [lia|]. split; [exact R2|]. split; [|exact R4].
          intros p [<-|Hp]; [lia|apply R3, Hp]. }
  destruct (G (predecessors P w) (-1)) as (_&R2&R3&R4); auto.
  split; [lia|left; reflexivity].
Qed.

(** The placement loop returns the first candidate [>= f0] that fits. *)
Lemma place_spec (P : Problem) fuel avail w f0 f :
  place P fuel avail w f0 = Ok f ->
  f0 <= f /\ f <= horizon P /\ fits P avail w (f - durations P w) = true /\
  (forall f', f0 <= f' < f -> fits P avail w (f' - durations P w) = false).
Proof.
  revert f0; induction fuel as [|fuel IH]; intros f0 H; simpl in H; [discriminate|].
  destruct (fits P avail w (f0 - durations P w)) eqn:F; destruct (horizon P <? _) eqn:E;
    try discriminate.
  - injection H as <-. apply Z.ltb_ge in E. repeat split; try lia; auto; intros f' Hf'; lia.
  - destruct (IH _ H) as (R1&R2&R3&R4). repeat split; try lia; auto.
    intros f' Hf'. destruct (Z.eq_dec f' f0) as [->|Hne]; [exact F|]. apply R4. lia.
Qed.

(** ** Counting and summing over index lists *)

Lemma filter_upd_count (f g : nat -> bool) l w :
  NoDup l -> In w l -> f w = false -> g w = true ->
  (forall x, x <> w -> f x = g x) ->
  length (filter g l) = S (length (filter f l)).
Proof.
  intros Hnd Hw Hf Hg Hfg. induction l as [|a l IH]; [destruct Hw|].
  apply NoDup_cons_iff in Hnd as [Ha Hnd]. simpl.
  destruct (Nat.eq_dec a w) as [->|Hne].
  - rewrite Hf, Hg. simpl. f_equal. f_equal.
    apply filter_ext_in. intros x Hx. symmetry. apply Hfg. intros ->. contradiction.
  - rewrite (Hfg a Hne). destruct Hw as [->|Hw]; [contradiction|].
    destruct (g a); simpl; rewrite IH; auto.
Qed.

Lemma filter_length_all (f : nat -> bool) l :
  length (filter f l) = length l -> forall x, In x l -> f x = true.
Proof.
  induction l as [|a l IH]; simpl; intros H x Hx; [destruct Hx|].
  pose proof (filter_length_le f l) as Hle.
  destruct (f a) eqn:E; simpl in H.
  - destruct Hx as [<-|Hx]; [exact E|]. apply IH; [lia|exact Hx].
  - lia.
Qed.

Lemma filter_length_missing (f : nat -> bool) l :
  (length (filter f l) < length l)%nat -> exists x, In x l /\ f x = false.
Proof.
  induction l as [|a l IH]; simpl; intros H; [lia|].
  destruct (f a) eqn:E.
  - simpl in H. destruct IH as [x [Hx Hf]]; [lia|]. exists x. split; [right; exact Hx|exact Hf].
  - exists a. split; [left; reflexivity|exact E].
Qed.

Lemma filter_none_length (f : nat -> bool) l :
  (forall x, In x l -> f x = false) -> length (filter f l) = 0%nat.
Proof.
  induction l as [|a l IH]; simpl; intros H; [reflexivity|].
  rewrite (H a (or_introl eq_refl)). apply IH. intros x Hx. apply H. right. exact Hx.
Qed.

Lemma forallb_false_ex {A : Type} (f : A -> bool) l :
  forallb f l = false -> exists x, In x l /\ f x = false.
Proof.
  induction l as [|a l IH]; simpl; intros H; [discriminate|].
  destruct (f a) eqn:E; simpl in H.
  - destruct (IH H) as [x [Hx Hf]]. exists x. split; [right; exact Hx|exact Hf].
  - exists a. split; [left; reflexivity|exact E].
Qed.

Lemma zsum_cons a l : zsum (a :: l) = a + zsum l.
Proof. reflexivity. Qed.

Lemma zsum_map_upd (g h : nat -> Z) l w :
  NoDup l -> In w l -> (forall x, x <> w -> g x = h x) ->
  zsum (map g l) + h w = zsum (map h l) + g w.
Proof.
  intros Hnd Hw Hgh. induction l as [|a l IH]; [destruct Hw|].
  apply NoDup_cons_iff in Hnd as [Ha Hnd]. simpl map. rewrite !zsum_cons.
  destruct (Nat.eq_dec a w) as [->|Hne].
  - rewrite (map_ext_in g h l); [lia|].
    intros x Hx. apply Hgh. intros ->. contradiction.
  - destruct Hw as [->|Hw]; [contradiction|]. rewrite (Hgh a Hne).
    specialize (IH Hnd Hw). lia.
Qed.

Lemma zsum_map_zero (g : nat -> Z) l : (forall x, In x l -> g x = 0) -> zsum (map g l) = 0.
Proof.
  induction l as [|a l IH]; simpl map; intros H; [reflexivity|].
  rewrite zsum_cons, (H a (or_introl eq_refl)), IH; [reflexivity|].
  intros x Hx. apply H. right. exact Hx.
Qed.

Lemma zsum_map_le (g h : nat -> Z) l : (forall x, In x l -> g x <= h x) ->
  zsum (map g l) <= zsum (map h l).
Proof.
  induction l as [|a l IH]; simpl map; intros H; [apply Z.le_refl|].
  rewrite !zsum_cons. pose proof (H a (or_introl eq_refl)).
  assert (zsum (map g l) <= zsum (map h l)) by (apply IH; intros x Hx; apply H; right; exact Hx).
  lia.
Qed.

(** ** Paths of the precedence graph *)

Lemma clos_trans_last {A : Type} (R : A -> A -> Prop) x y :
  clos_trans A R x y -> exists z, R z y /\ (z = x \/ clos_trans A R x z).
Proof.
  intros H. induction H as [x y Hxy|x y z Hxy IH1 Hyz IH2].
  - exists x. split; [exact Hxy|left; reflexivity].
  - destruct IH2 as [w [Hw [->|Hyw]]].
    + exists y. split; [exact Hw|right; exact Hxy].
    + exists w. split; [exact Hw|right; apply t_trans with y; assumption].
Qed.

Section Ranked.

Variable P : Problem.
Hypothesis HP : wf P.
Variable rank : nat -> nat.
Hypothesis Hrank : forall j p, (j < njobs P)%nat -> In p (predecessors P j) -> (rank p < rank j)%nat.

Lemma succ_edge_rank a b :
  (a < njobs P)%nat -> succ_edge P a b -> (b < njobs P)%nat /\ (rank a < rank b)%nat.
Proof.
  intros Ha Hab. assert (Hb : (b < njobs P)%nat) by exact (wf_successors_range P HP a b Ha Hab).
  split; [exact Hb|]. apply Hrank; [exact Hb|]. apply (wf_adjacency P HP); assumption.
Qed.

Lemma path_rank a b :
  clos_trans nat (succ_edge P) a b -> (a < njobs P)%nat ->
  (b < njobs P)%nat /\ (rank a < rank b)%nat.
Proof.
  intros H. induction H as [x y Hxy|x y z Hxy IH1 Hyz IH2]; intros Ha.
  - exact (succ_edge_rank x y Ha Hxy).
  - destruct (IH1 Ha) as [Hy R1]. destruct (IH2 Hy) as [Hz R2]. split; [exact Hz|lia].
Qed.

Lemma source_no_pred : predecessors P 0 = [].
Proof.
  destruct (predecessors P 0) as [|p l] eqn:E; [reflexivity|exfalso].
  assert (Hp : In p (predecessors P 0)) by (rewrite E; left; reflexivity).
  pose proof (wf_njobs P HP) as Hn.
  pose proof (Hrank 0 p ltac:(lia) Hp) as R.
  pose proof (wf_predecessors_range P HP 0 p ltac:(lia) Hp) as Hpn.
  destruct p as [|p]; [lia|].
  destruct (path_rank 0 (S p) (wf_source P HP (S p) ltac:(lia)) ltac:(lia)). lia.
Qed.

Lemma has_pred j : (0 < j < njobs P)%nat -> exists p, In p (predecessors P j) /\ (p < njobs P)%nat.
Proof.
  intros Hj. destruct (clos_trans_last _ _ _ (wf_source P HP j Hj)) as [z [Hz Hpath]].
  assert (Hzn : (z < njobs P)%nat).
  { destruct Hpath as [->|Hpath]; [lia|]. exact (proj1 (path_rank 0 z Hpath ltac:(lia))). }
  exists z. split; [|exact Hzn]. apply (wf_adjacency P HP); [lia|exact Hzn|exact Hz].
Qed.

End Ranked.

(** ** The invariant of a tournament pass *)

Lemma pinv_init (P : Problem) buf d : wf P -> pinv P (pass_init P buf d) 0.
Proof.
  intros HP. destruct (wf_acyclic P HP) as [rank Hrank].
  pose proof (wf_njobs P HP) as Hn.
  constructor; simpl.
  - reflexivity.
  - apply filter_none_length. intros x Hx. apply in_seq in Hx. unfold upd.
    destruct (Nat.eqb x 0) eqn:E; [apply Nat.eqb_eq in E; lia|reflexivity].
  - intros j Hj Hs p Hp. unfold upd in Hs. destruct (Nat.eqb j 0) eqn:E; [|lia].
    apply Nat.eqb_eq in E. subst j. rewrite (source_no_pred P HP rank Hrank) in Hp. destruct Hp.
  - intros k t Hk. unfold usage. rewrite zsum_map_zero; [lia|].
    intros x Hx. unfold upd. destruct (Nat.eqb x 0) eqn:E.
    + apply Nat.eqb_eq in E. subst x. rewrite (wf_source_duration P HP).
      simpl. destruct (0 <=? t) eqn:E2, (t <? 0) eqn:E3; try reflexivity.
      apply Z.leb_le in E2. apply Z.ltb_lt in E3. lia.
    + reflexivity.
  - intros k t Hk Ht. apply (wf_capacities P HP); assumption.
Qed.

(** Some unscheduled activity has all its predecessors scheduled. *)
Lemma pinv_eligible_nonempty (P : Problem) st m :
  wf P -> pinv P st m -> (m < njobs P - 1)%nat -> eligible_list P (schedule st) <> [].
Proof.
  intros HP Hinv Hm. destruct (wf_acyclic P HP) as [rank Hrank].
  destruct (filter_length_missing (fun j => 0 <=? schedule st j) (seq 1 (njobs P - 1)))
    as [j0 [Hj0 Hs0]].
  { rewrite (pi_count P st m Hinv), length_seq. exact Hm. }
  assert (G : forall r j, (rank j < r)%nat -> (1 <= j < njobs P)%nat -> schedule st j < 0 ->
            exists e, In e (eligible_list P (schedule st))).
  { induction r as [|r IH]; intros j Hr Hj Hs; [lia|].
    destruct (forallb (fun p => 0 <=? schedule st p) (predecessors P j)) eqn:F.
    - exists j. apply eligible_list_spec. repeat split; try lia; try exact Hs.
      intros p Hp. rewrite forallb_forall in F. apply Z.leb_le, F, Hp.
    - destruct (forallb_false_ex _ _ F) as [p [Hp Hsp]]. apply Z.leb_gt in Hsp.
      pose proof (Hrank j p ltac:(lia) Hp).
      pose proof (wf_predecessors_range P HP j p ltac:(lia) Hp).
      assert (p <> 0%nat).
      { intros ->. rewrite (pi_source P st m Hinv) in Hsp. lia. }
      apply (IH p); [lia|lia|exact Hsp]. }
  apply in_seq in Hj0. apply Z.leb_gt in Hs0.
  destruct (G (S (rank j0)) j0 ltac:(lia) ltac:(lia) Hs0) as [e He].
  intros E. rewrite E in He. destruct He.
Qed.

Lemma pinv_all_scheduled (P : Problem) st :
  pinv P st (njobs P - 1) -> forall j, (j < njobs P)%nat -> 0 <= schedule st j.
Proof.
  intros Hinv j Hj. destruct j as [|j].
  - rewrite (pi_source P st _ Hinv). lia.
  - pose proof (filter_length_all _ _ (eq_trans (pi_count P st _ Hinv) (eq_sym (length_seq _ _))))
      as Hall.
    apply Z.leb_le, Hall, in_seq. lia.
Qed.

Lemma usage_upd (P : Problem) sched w f k t :
  (w < njobs P)%nat -> sched w < 0 -> 0 <= f ->
  usage P (upd sched w f) k t = usage P sched k t +
    (if (f - durations P w <=? t) && (t <? f) then requests P w k (t - (f - durations P w)) else 0).
Proof.
  intros Hw Hs Hf. unfold usage.
  pose proof (zsum_map_upd
    (fun j => if (0 <=? upd sched w f j) && (upd sched w f j - durations P j <=? t)
                 && (t <? upd sched w f j)
              then requests P j k (t - (upd sched w f j - durations P j)) else 0)
    (fun j => if (0 <=? sched j) && (sched j - durations P j <=? t) && (t <? sched j)
              then requests P j k (t - (sched j - durations P j)) else 0)
    (seq 0 (njobs P)) w (seq_NoDup _ _) ltac:(apply in_seq; lia)) as U.
  cbv beta in U.
  assert (Ew : upd sched w f w = f) by (unfold upd; rewrite Nat.eqb_refl; reflexivity).
  assert (E0 : (0 <=? sched w) = false) by (apply Z.leb_gt; exact Hs).
  assert (E1 : (0 <=? f) = true) by (apply Z.leb_le; exact Hf).
  rewrite Ew, E0, E1, !andb_false_l, andb_true_l in U. cbv iota in U.
  assert (Hext : forall x, x <> w ->
    (if (0 <=? upd sched w f x) && (upd sched w f x - durations P x <=? t) && (t <? upd sched w f x)
     then requests P x k (t - (upd sched w f x - durations P x)) else 0) =
    (if (0 <=? sched x) && (sched x - durations P x <=? t) && (t <? sched x)
     then requests P x k (t - (sched x - durations P x)) else 0)).
  { intros x Hx. unfold upd. apply Nat.eqb_neq in Hx. rewrite Hx. reflexivity. }
  specialize (U Hext). lia.
Qed.

Lemma pinv_step (P : Problem) prio rng fuel st st' m :
  wf P -> (forall i, 0 <= rng i /\ rng i < 1)%Q ->
  pinv P st m -> (m < njobs P - 1)%nat ->
  step P prio rng fuel st = Ok st' -> pinv P st' (S m).
Proof.
  intros HP Hr Hinv Hm H. destruct (wf_acyclic P HP) as [rank Hrank].
  pose proof (pinv_eligible_nonempty P st m HP Hinv Hm) as Hne.
  unfold step in H.
  destruct (winner_scan prio _) as [w|] eqn:W; [|discriminate].
  destruct (place P fuel (available st) w (finish0 P (schedule st) w)) as [f| |] eqn:PL;
    try discriminate.
  injection H as <-.
  pose proof (selection_in _ _ _ _ _ Hr Hne (winner_scan_in _ _ _ W)) as Hw.
  apply eligible_list_spec in Hw as [Hwn [Hws Hwp]].
  destruct (finish0_spec P (schedule st) w) as (F1&F2&F3).
  destruct (place_spec P fuel _ _ _ _ PL) as (L1&L2&L3&L4).
  destruct (has_pred P HP rank Hrank w ltac:(lia)) as [p0 [Hp0 Hp0n]].
  pose proof (F2 p0 Hp0). pose proof (Hwp p0 Hp0).
  pose proof (wf_durations P HP w ltac:(lia)) as Hdw.
  assert (Hf : 0 <= f) by lia.
  assert (Hsc : forall x, 0 <= schedule st x -> Nat.eqb x w = false).
  { intros x Hx. apply Nat.eqb_neq. intros ->. lia. }
  constructor; simpl.
  - unfold upd. rewrite Hsc; [apply (pi_source P st m Hinv)|].
    rewrite (pi_source P st m Hinv). lia.
  - rewrite <- (pi_count P st m Hinv).
    apply filter_upd_count with (w := w).
    + apply seq_NoDup.
    + apply in_seq. lia.
    + apply Z.leb_gt. exact Hws.
    + unfold upd. rewrite Nat.eqb_refl. apply Z.leb_le. exact Hf.
    + intros x Hx. unfold upd. apply Nat.eqb_neq in Hx. rewrite Hx. reflexivity.
  - intros j Hj Hs p Hp. unfold upd in Hs |- *.
    destruct (Nat.eqb j w) eqn:Ejw.
    + apply Nat.eqb_eq in Ejw. subst j.
      rewrite (Hsc p (Hwp p Hp)). pose proof (F2 p Hp). pose proof (Hwp p Hp). lia.
    + destruct (pi_prec P st m Hinv j Hj Hs p Hp) as [Q1 Q2].
      rewrite (Hsc p Q1). lia.
  - intros k t Hk. unfold consume. rewrite (pi_avail P st m Hinv k t Hk).
    rewrite (usage_upd P (schedule st) w f k t ltac:(lia) Hws Hf).
    apply Nat.ltb_lt in Hk. rewrite Hk, andb_true_l.
    destruct ((f - durations P w <=? t) && (t <? f)); lia.
  - intros k t Hk Ht. unfold consume.
    pose proof (pi_avail_nonneg P st m Hinv k t Hk Ht).
    assert (Hk' := Hk). apply Nat.ltb_lt in Hk'. rewrite Hk'. simpl.
    destruct (f - durations P w <=? t) eqn:T1; destruct (t <? f) eqn:T2; simpl; try lia.
    apply Z.leb_le in T1. apply Z.ltb_lt in T2.
    rewrite fits_spec in L3.
    pose proof (L3 k (t - (f - durations P w)) Hk ltac:(lia)) as R.
    replace (f - durations P w + (t - (f - durations P w))) with t in R by lia. lia.
Qed.

Lemma iterate_pinv (P : Problem) prio rng fuel m st st' m0 :
  wf P -> (forall i, 0 <= rng i /\ rng i < 1)%Q ->
  pinv P st m0 -> (m0 + m <= njobs P - 1)%nat ->
  iterate P prio rng fuel m st = Ok st' -> pinv P st' (m0 + m).
Proof.
  intros HP Hr. revert st m0; induction m as [|m IH]; intros st m0 Hinv Hm H; simpl in H.
  - injection H as <-. rewrite Nat.add_0_r. exact Hinv.
  - destruct (step P prio rng fuel st) as [st1| |] eqn:E; try discriminate.
    replace (m0 + S m)%nat with (S m0 + m)%nat by lia.
    apply (IH st1); [|lia|exact H].
    apply (pinv_step P prio rng fuel st st1 m0 HP Hr Hinv); [lia|exact E].
Qed.

Lemma pass_pinv (P : Problem) prio rng fuel buf d st :
  wf P -> (forall i, 0 <= rng i /\ rng i < 1)%Q ->
  pass P prio rng fuel buf d = Ok st -> pinv P st (njobs P - 1).
Proof.
  intros HP Hr H.
  exact (iterate_pinv P prio rng fuel (njobs P - 1) _ _ 0 HP Hr (pinv_init P buf d HP)
           ltac:(lia) H).
Qed.

(** ** What a successful call returns *)

Lemma run_passes_found (P : Problem) prio rng fuel n s s' :
  wf P -> (forall i, 0 <= rng i /\ rng i < 1)%Q ->
  (INT32_MAX_HALF <= bestMakespan s \/
   exists st, pinv P st (njobs P - 1) /\ forall i, (i < njobs P)%nat -> out s i = schedule st i) ->
  run_passes P prio rng fuel n s = PDone s' ->
  INT32_MAX_HALF <= bestMakespan s' \/
  exists st, pinv P st (njobs P - 1) /\ forall i, (i < njobs P)%nat -> out s' i = schedule st i.
Proof.
  intros HP Hr. revert s; induction n as [|n IH]; intros s Hs H; simpl in H.
  - injection H as <-. exact Hs.
  - destruct (pass P prio rng fuel (sbuf s) (sdraws s)) as [st| |] eqn:E; try discriminate.
    refine (IH _ _ H). unfold keep_best.
    destruct (schedule st (sink P) <? bestMakespan s); simpl.
    + right. exists st. split; [exact (pass_pinv P prio rng fuel _ _ st HP Hr E)|].
      intros i Hi. apply Nat.ltb_lt in Hi. rewrite Hi. reflexivity.
    + exact Hs.
Qed.

Lemma solve_found_schedule (fuel : nat) (P : Problem) (rng : nat -> Q)
    (buf0 : nat -> nat) (ru0 : nat -> float) (out0 : nat -> Z) (o : nat -> Z) :
  wf P -> (forall i, 0 <= rng i /\ rng i < 1)%Q -> horizon P < INT32_MAX_HALF ->
  solve fuel P rng buf0 ru0 out0 = Some (true, o) ->
  exists st, pinv P st (njobs P - 1) /\ forall i, (i < njobs P)%nat -> o i = schedule st i.
Proof.
  intros HP Hr Hh. unfold solve.
  destruct (ef_pass P fuel) as [ef| |]; try discriminate.
  destruct (ls_pass P fuel) as [ls| |]; try discriminate.
  destruct (ru_pass P fuel ef ls ru0) as [ru| |]; try discriminate.
  destruct (run_passes P (cpru P ls ru) rng fuel NPASSES _) as [s|s|] eqn:E; try discriminate.
  intros H. injection H as Hb <-. apply Z.leb_le in Hb.
  destruct (run_passes_found P _ rng fuel NPASSES (mkS INT32_MAX_HALF out0 buf0 0) s HP Hr
              (or_introl (Z.le_refl INT32_MAX_HALF)) E) as [Hbig|Hok].
  - simpl in Hbig. lia.
  - exact Hok.
Qed.

(** ** A well-formed instance *)

Lemma In_existsb (a : nat) l : In a l <-> existsb (Nat.eqb a) l = true.
Proof.
  rewrite existsb_exists. split.
  - intros H. exists a. split; [exact H|apply Nat.eqb_refl].
  - intros [x [Hx E]]. apply Nat.eqb_eq in E. subst x. exact Hx.
Qed.

Ltac in_cases H :=
  simpl in H; repeat (destruct H as [H|H]; [subst|]); try (destruct H).

Lemma chain3_wf : wf (chain3 5).
Proof.
  constructor.
  - simpl. lia.
  - simpl. lia.
  - intros j Hj. destruct j as [|[|[|j]]]; simpl; lia.
  - reflexivity.
  - reflexivity.
  - intros j k t Hj Hk Ht. destruct j as [|[|[|j]]]; simpl; lia.
  - intros k t Hk Ht. simpl. destruct ((t =? 1) || (t =? 2)); lia.
  - intros j s Hj Hs. simpl in Hj. destruct j as [|[|[|j]]]; in_cases Hs; simpl; lia.
  - intros j p Hj Hp. simpl in Hj. destruct j as [|[|[|j]]]; in_cases Hp; simpl; lia.
  - intros j p Hj Hp. simpl in Hj, Hp.
    rewrite !In_existsb.
    destruct j as [|[|[|j]]]; destruct p as [|[|[|p]]]; try lia; reflexivity.
  - exists (fun j => j). intros j p Hj Hp. simpl in Hj.
    destruct j as [|[|[|j]]]; in_cases Hp; lia.
  - intros j Hj. simpl in Hj. destruct j as [|[|[|j]]]; try lia.
    + apply t_step. unfold succ_edge. simpl. auto.
    + apply t_trans with 1%nat; apply t_step; unfold succ_edge; simpl; auto.
  - intros j Hj. unfold sink in *. simpl in *. destruct j as [|[|j]]; try lia.
    + apply t_trans with 1%nat; apply t_step; unfold succ_edge; simpl; auto.
    + apply t_step. unfold succ_edge. simpl. auto.
Qed.

Lemma zeros_rng : forall i, (0 <= zeros 0%Q i /\ zeros 0%Q i < 1)%Q.
Proof. intros i. unfold zeros. split; [apply Qle_refl|reflexivity]. Qed.

Lemma late3_wf : wf late3.
Proof.
  constructor.
  - simpl. lia.
  - simpl. unfold INT32_MAX_HALF. lia.
  - intros j Hj. destruct j as [|[|[|j]]]; simpl; unfold INT32_MAX_HALF; lia.
  - reflexivity.
  - reflexivity.
  - intros j k t Hj Hk Ht. simpl in Hk. lia.
  - intros k t Hk Ht. simpl in Hk. lia.
  - intros j s Hj Hs. simpl in Hj. destruct j as [|[|[|j]]]; in_cases Hs; simpl; lia.
  - intros j p Hj Hp. simpl in Hj. destruct j as [|[|[|j]]]; in_cases Hp; simpl; lia.
  - intros j p Hj Hp. simpl in Hj, Hp.
    rewrite !In_existsb.
    destruct j as [|[|[|j]]]; destruct p as [|[|[|p]]]; try lia; reflexivity.
  - exists (fun j => j). intros j p Hj Hp. simpl in Hj.
    destruct j as [|[|[|j]]]; in_cases Hp; lia.
  - intros j Hj. simpl in Hj. destruct j as [|[|[|j]]]; try lia.
    + apply t_step. unfold succ_edge. simpl. auto.
    + apply t_trans with 1%nat; apply t_step; unfold succ_edge; simpl; auto.
  - intros j Hj. unfold sink in *. simpl in *. destruct j as [|[|j]]; try lia.
    + apply t_trans with 1%nat; apply t_step; unfold succ_edge; simpl; auto.
    + apply t_step. unfold succ_edge. simpl. auto.
Qed.

Lemma lateR_cap_nonneg t : 0 <= capacities lateR 0%nat t.
Proof. cbv [capacities lateR]. destruct (t =? 0); lia. Qed.

Lemma lateR_wf : wf lateR.
Proof.
  constructor.
  - simpl. lia.
  - simpl. unfold INT32_MAX_HALF. lia.
  - intros j Hj. destruct j as [|[|[|[|j]]]]; simpl; unfold INT32_MAX_HALF; lia.
  - reflexivity.
  - reflexivity.
  - intros j k t Hj Hk Ht. destruct j as [|[|[|[|j]]]]; simpl; lia.
  - intros k t Hk Ht. apply lateR_cap_nonneg.
  - intros j s Hj Hs. simpl in Hj. destruct j as [|[|[|[|j]]]]; in_cases Hs; simpl; lia.
  - intros j p Hj Hp. simpl in Hj. destruct j as [|[|[|[|j]]]]; in_cases Hp; simpl; lia.
  - intros j p Hj Hp. simpl in Hj, Hp.
    rewrite !In_existsb.
    destruct j as [|[|[|[|j]]]]; destruct p as [|[|[|[|p]]]]; try lia; reflexivity.
  - exists (fun j => j). intros j p Hj Hp. simpl in Hj.
    destruct j as [|[|[|[|j]]]]; in_cases Hp; lia.
  - intros j Hj. simpl in Hj. destruct j as [|[|[|[|j]]]]; try lia.
    + apply t_step. unfold succ_edge. simpl. auto.
    + apply t_trans with 1%nat; apply t_step; unfold succ_edge; simpl; auto.
    + apply t_trans with 2%nat; [apply t_trans with 1%nat|]; apply t_step; unfold succ_edge; simpl; auto.
  - intros j Hj. unfold sink in *. simpl in *. destruct j as [|[|[|j]]]; try lia.
    + apply t_trans with 2%nat; [apply t_trans with 1%nat|]; apply t_step; unfold succ_edge; simpl; auto.
    + apply t_trans with 2%nat; apply t_step; unfold succ_edge; simpl; auto.
    + apply t_step. unfold succ_edge. simpl. auto.
Qed.

Lemma fan_rng_range : forall i, (0 <= fan_rng i /\ fan_rng i < 1)%Q.
Proof.
  intros i. unfold fan_rng. destruct (i mod 4)%nat as [|[|[|]]];
    split; vm_compute; first [reflexivity | discriminate | intros H; discriminate H].
Qed.

Lemma fan8_wf : wf fan8.
Proof.
  constructor.
  - simpl. lia.
  - simpl. lia.
  - intros j Hj. do 8 (destruct j as [|j]; [simpl; lia|]). simpl in Hj. lia.
  - reflexivity.
  - reflexivity.
  - intros j k t Hj Hk Ht. simpl in Hk. lia.
  - intros k t Hk Ht. simpl in Hk. lia.
  - intros j s Hj Hs. simpl in Hj. do 8 (destruct j as [|j]; [in_cases Hs; simpl; lia|]). lia.
  - intros j p Hj Hp. simpl in Hj. do 8 (destruct j as [|j]; [in_cases Hp; simpl; lia|]). lia.
  - intros j p Hj Hp. simpl in Hj, Hp. rewrite !In_existsb.
    do 8 (destruct j as [|j]; [do 8 (destruct p as [|p]; [reflexivity|]); lia|]). lia.
  - exists (fun j => match j with O => 0%nat | S (S (S (S (S (S (S _)))))) => 2%nat | _ => 1%nat end).
    intros j p Hj Hp. simpl in Hj. do 8 (destruct j as [|j]; [in_cases Hp; lia|]). lia.
  - intros j Hj. simpl in Hj.
    do 7 (destruct j as [|j]; [try lia; apply t_step; unfold succ_edge; simpl; tauto|]).
    destruct j as [|j]; [|lia].
    apply t_trans with 1%nat; apply t_step; unfold succ_edge; simpl; tauto.
  - intros j Hj. unfold sink in Hj |- *. simpl in Hj |- *.
    destruct j as [|j].
    + apply t_trans with 1%nat; apply t_step; unfold succ_edge; simpl; tauto.
    + do 6 (destruct j as [|j]; [apply t_step; unfold succ_edge; simpl; tauto|]). lia.
Qed.

(** *** The found schedule, for a horizon below [INT32_MAX / 2] *)

(** Extra: for a well-formed instance, draws in [0, 1) and a horizon below
    the initial [bestMakespan = INT32_MAX / 2], when [solve] returns [true]
    the returned finish times respect every precedence:
    [out[p] <= out[j] - durations[j]] for every predecessor [p] of [j]. *)
Theorem solve_found_precedence (fuel : nat) (P : Problem) (rng : nat -> Q)
    (buf0 : nat -> nat) (ru0 : nat -> float) (out0 : nat -> Z) (o : nat -> Z) :
  wf P -> (forall i, 0 <= rng i /\ rng i < 1)%Q -> horizon P < INT32_MAX_HALF ->
  solve fuel P rng buf0 ru0 out0 = Some (true, o) ->
  forall j p, (j < njobs P)%nat -> In p (predecessors P j) -> o p <= o j - durations P j.
Proof.
  intros HP Hr Hh H j p Hj Hp.
  destruct (solve_found_schedule fuel P rng buf0 ru0 out0 o HP Hr Hh H) as [st [Hinv Ho]].
  pose proof (wf_predecessors_range P HP j p Hj Hp) as Hpn.
  rewrite (Ho j Hj), (Ho p Hpn).
  exact (proj2 (pi_prec P st _ Hinv j Hj (pinv_all_scheduled P st Hinv j Hj) p Hp)).
Qed.

Lemma solve_found_precedence_witness :
  match solve 100 (chain3 5) (zeros 0%Q) (zeros 0%nat) (zeros 0%float) (zeros 7) with
  | Some (true, o) =>
      forall j p, (j < 3)%nat -> In p (predecessors (chain3 5) j) ->
        o p <= o j - durations (chain3 5) j
  | _ => False
  end.
Proof.
  destruct (solve 100 (chain3 5) (zeros 0%Q) (zeros 0%nat) (zeros 0%float) (zeros 7))
    as [[[|] o]|] eqn:E.
  - intros j p Hj Hp.
    exact (solve_found_precedence 100 (chain3 5) (zeros 0%Q) (zeros 0%nat) (zeros 0%float)
             (zeros 7) o chain3_wf zeros_rng ltac:(vm_compute; reflexivity) E j p Hj Hp).
  - vm_compute in E. discriminate.
  - vm_compute in E. discriminate.
Defined.

(** Extra: for a well-formed instance, draws in [0, 1) and a horizon below
    [INT32_MAX / 2], when [solve] returns [true], at every resource [k] and
    time [t] in [0, horizon) the requests of the activities running at [t]
    under [out] sum to at most [capacities[k][t]]. *)
Theorem solve_found_resources (fuel : nat) (P : Problem) (rng : nat -> Q)
    (buf0 : nat -> nat) (ru0 : nat -> float) (out0 : nat -> Z) (o : nat -> Z) :
  wf P -> (forall i, 0 <= rng i /\ rng i < 1)%Q -> horizon P < INT32_MAX_HALF ->
  solve fuel P rng buf0 ru0 out0 = Some (true, o) ->
  forall k t, (k < nresources P)%nat -> 0 <= t < horizon P -> load P o k t <= capacities P k t.
Proof.
  intros HP Hr Hh H k t Hk Ht.
  destruct (solve_found_schedule fuel P rng buf0 ru0 out0 o HP Hr Hh H) as [st [Hinv Ho]].
  assert (L : load P o k t = usage P (schedule st) k t).
  { unfold load, usage. f_equal. apply map_ext_in. intros j Hj. apply in_seq in Hj.
    rewrite (Ho j ltac:(lia)).
    assert (E : (0 <=? schedule st j) = true)
      by (apply Z.leb_le; apply (pinv_all_scheduled P st Hinv); lia).
    rewrite E. reflexivity. }
  rewrite L.
  pose proof (pi_avail P st _ Hinv k t Hk). pose proof (pi_avail_nonneg P st _ Hinv k t Hk Ht).
  lia.
Qed.

Lemma solve_found_resources_witness :
  match solve 100 (chain3 5) (zeros 0%Q) (zeros 0%nat) (zeros 0%float) (zeros 7) with
  | Some (true, o) =>
      forall k t, (k < 1)%nat -> 0 <= t < 5 -> load (chain3 5) o k t <= capacities (chain3 5) k t
  | _ => False
  end.
Proof.
  destruct (solve 100 (chain3 5) (zeros 0%Q) (zeros 0%nat) (zeros 0%float) (zeros 7))
    as [[[|] o]|] eqn:E.
  - intros k t Hk Ht.
    exact (solve_found_resources 100 (chain3 5) (zeros 0%Q) (zeros 0%nat) (zeros 0%float)
             (zeros 7) o chain3_wf zeros_rng ltac:(vm_compute; reflexivity) E k t Hk Ht).
  - vm_compute in E. discriminate.
  - vm_compute in E. discriminate.
Defined.

(** *** C10 *)

(** Claim C10: for a well-formed instance and draws in [0, 1), at the start
    of each of the [njobs - 1] iterations of a pass (after [m < njobs - 1]
    completed ones) the eligible list is non-empty, every sampled index
    [(int)(u * neligible)] lies in [0, neligible), and so every sampled
    activity is read from the part of [eligible] written in this iteration. *)
Theorem eligible_nonempty_in_bounds (P : Problem) (prio : nat -> float) (rng : nat -> Q)
    (fuel : nat) (buf : nat -> nat) (d m : nat) (st : pstate) :
  wf P -> (forall i, 0 <= rng i /\ rng i < 1)%Q -> (m < njobs P - 1)%nat ->
  iterate P prio rng fuel m (pass_init P buf d) = Ok st ->
  let el := eligible_list P (schedule st) in
  el <> [] /\
  (forall j, (j < nsamples (length el))%nat ->
     0 <= choice (rng (draws st + j)%nat) (length el) < Z.of_nat (length el)) /\
  (forall x, In x (selection rng (write_eligible (elbuf st) el) (length el) (draws st)) ->
     In x el).
Proof.
  intros HP Hr Hm H el.
  pose proof (iterate_pinv P prio rng fuel m _ st 0 HP Hr (pinv_init P buf d HP)
                ltac:(lia) H) as Hinv.
  assert (Hne : el <> []) by exact (pinv_eligible_nonempty P st m HP Hinv Hm).
  split; [exact Hne|]. split.
  - intros j _. destruct (Hr (draws st + j)%nat) as [R0 R1].
    apply choice_range; [exact R0|exact R1|].
    destruct el as [|a l]; [congruence|simpl; lia].
  - intros x Hx. exact (selection_in rng (elbuf st) el (draws st) x Hr Hne Hx).
Qed.

(** On [fan8], after two iterations the eligible list has four entries. *)
Lemma eligible_nonempty_in_bounds_witness :
  match iterate fan8 fan_prio fan_rng 100 2 (pass_init fan8 (zeros 9%nat) 0) with
  | Ok st =>
      let el := eligible_list fan8 (schedule st) in
      el = [1%nat; 2%nat; 4%nat; 6%nat] /\ draws st = 5%nat /\
      (el <> [] /\
       (forall j, (j < nsamples (length el))%nat ->
          0 <= choice (fan_rng (draws st + j)%nat) (length el) < Z.of_nat (length el)) /\
       (forall x, In x (selection fan_rng (write_eligible (elbuf st) el) (length el) (draws st)) ->
          In x el))
  | _ => False
  end.
Proof.
  destruct (iterate fan8 fan_prio fan_rng 100 2 (pass_init fan8 (zeros 9%nat) 0))
    as [st| |] eqn:E.
  - intros el. split; [|split].
    + vm_compute in E. injection E as <-. vm_compute. reflexivity.
    + vm_compute in E. injection E as <-. vm_compute. reflexivity.
    + exact (eligible_nonempty_in_bounds fan8 fan_prio fan_rng 100 (zeros 9%nat) 0 2 st
               fan8_wf fan_rng_range ltac:(cbn; lia) E).
  - vm_compute in E. discriminate.
  - vm_compute in E. discriminate.
Defined.

(** ** The preprocessing passes *)

Lemma clos_trans_first {A : Type} (R : A -> A -> Prop) x y :
  clos_trans A R x y -> exists z, R x z /\ (z = y \/ clos_trans A R z y).
Proof.
  intros H. induction H as [x y Hxy|x y z Hxy IH1 Hyz IH2].
  - exists y. split; [exact Hxy|left; reflexivity].
  - destruct IH1 as [w [Hw [->|Hwy]]].
    + exists y. split; [exact Hw|right; exact Hyz].
    + exists w. split; [exact Hw|right; apply t_trans with y; assumption].
Qed.

Definition pred_edge (P : Problem) (a b : nat) : Prop := In b (predecessors P a).

Lemma path_bound (P : Problem) a b :
  wf P -> clos_trans nat (succ_edge P) a b -> (a < njobs P)%nat -> (b < njobs P)%nat.
Proof.
  intros HP H. induction H as [x y Hxy|x y z Hxy IH1 Hyz IH2]; intros Ha.
  - exact (wf_successors_range P HP x y Ha Hxy).
  - exact (IH2 (IH1 Ha)).
Qed.

Lemma path_reverse (P : Problem) a b :
  wf P -> clos_trans nat (succ_edge P) a b -> (a < njobs P)%nat ->
  clos_trans nat (pred_edge P) b a.
Proof.
  intros HP H. induction H as [x y Hxy|x y z Hxy IH1 Hyz IH2]; intros Ha.
  - apply t_step. unfold pred_edge. pose proof (wf_successors_range P HP x y Ha Hxy).
    apply (wf_adjacency P HP); assumption.
  - apply t_trans with y; [apply IH2, (path_bound P x y HP Hxy Ha)|apply IH1, Ha].
Qed.

Lemma ef_advance_ge (P : Problem) fuel job e e' :
  ef_advance P fuel job e = Ok e' -> e <= e'.
Proof.
  revert e; induction fuel as [|fuel IH]; intros e H; simpl in H; [discriminate|].
  destruct (fits P (capacities P) job (e - durations P job)); destruct (horizon P <? _);
    try discriminate.
  - injection H as <-. lia.
  - pose proof (IH _ H). lia.
Qed.

Lemma ls_advance_le (P : Problem) fuel job l l' :
  ls_advance P fuel job l = Ok l' -> l' <= l.
Proof.
  revert l; induction fuel as [|fuel IH]; intros l H; simpl in H; [discriminate|].
  destruct (fits P (capacities P) job l); destruct (_ <? 0); try discriminate.
  - injection H as <-. lia.
  - pose proof (IH _ H). lia.
Qed.

Lemma ef_relax_spec (P : Problem) job ef :
  (forall x, ef x <= ef_relax P job ef x) /\
  (forall s, In s (successors P job) -> ef job + durations P s <= ef_relax P job ef s).
Proof.
  unfold ef_relax. generalize (successors P job) as l.
  intros l; revert ef; induction l as [|a l IH]; intros ef; simpl.
  - split; [lia|tauto].
  - set (ef2 := if ef a <? ef job + durations P a
                then upd ef a (ef job + durations P a) else ef).
    assert (M : forall x, ef x <= ef2 x).
    { intros x. unfold ef2. destruct (ef a <? _) eqn:E; [|lia].
      apply Z.ltb_lt in E. unfold upd. destruct (Nat.eqb x a) eqn:Ex; [|lia].
      apply Nat.eqb_eq in Ex. subst. lia. }
    assert (A : ef job + durations P a <= ef2 a).
    { unfold ef2. destruct (ef a <? _) eqn:E; [|apply Z.ltb_ge in E; lia].
      unfold upd. rewrite Nat.eqb_refl. lia. }
    destruct (IH ef2) as [R1 R2]. split.
    + intros x. specialize (M x). specialize (R1 x). lia.
    + intros s [<-|Hs].
      * specialize (R1 a). lia.
      * specialize (R2 s Hs). specialize (M job). lia.
Qed.

Lemma ls_relax_spec (P : Problem) job ls :
  (forall x, ls_relax P job ls x <= ls x) /\
  (forall p, In p (predecessors P job) -> ls_relax P job ls p <= ls job - durations P p).
Proof.
  unfold ls_relax. generalize (predecessors P job) as l.
  intros l; revert ls; induction l as [|a l IH]; intros ls; simpl.
  - split; [lia|tauto].
  - set (ls2 := if ls job - durations P a <? ls a
                then upd ls a (ls job - durations P a) else ls).
    assert (M : forall x, ls2 x <= ls x).
    { intros x. unfold ls2. destruct (_ <? ls a) eqn:E; [|lia].
      apply Z.ltb_lt in E. unfold upd. destruct (Nat.eqb x a) eqn:Ex; [|lia].
      apply Nat.eqb_eq in Ex. subst. lia. }
    assert (A : ls2 a <= ls job - durations P a).
    { unfold ls2. destruct (_ <? ls a) eqn:E; [|apply Z.ltb_ge in E; lia].
      unfold upd. rewrite Nat.eqb_refl. lia. }
    destruct (IH ls2) as [R1 R2]. split.
    + intros x. specialize (M x). specialize (R1 x). lia.
    + intros p [<-|Hp].
      * specialize (R1 a). lia.
      * specialize (R2 p Hp). specialize (M job). lia.
Qed.

Lemma ef_loop_bound (P : Problem) fuel q ef ef' :
  wf P ->
  (forall x, 0 <= ef x) ->
  (forall a, In a q -> (a < njobs P)%nat /\ durations P a <= ef a) ->
  (forall j, (j < njobs P)%nat ->
     durations P j <= ef j \/ exists a, In a q /\ clos_trans nat (succ_edge P) a j) ->
  ef_loop P fuel q ef = Ok ef' ->
  forall j, (j < njobs P)%nat -> durations P j <= ef' j.
Proof.
  intros HP. revert q ef; induction fuel as [|fuel IH]; intros q ef H0 Hq Hr H;
    simpl in H; [discriminate|].
  destruct q as [|job q].
  - injection H as <-. intros j Hj. destruct (Hr j Hj) as [D|[a [[] _]]]. exact D.
  - destruct (ef_advance P fuel job (ef job)) as [e| |] eqn:A; try discriminate.
    pose proof (ef_advance_ge P fuel job _ _ A) as Ae.
    destruct (Hq job (or_introl eq_refl)) as [Hjob _].
    destruct (ef_relax_spec P job (upd ef job e)) as [R1 R2].
    set (ef2 := ef_relax P job (upd ef job e)) in *.
    assert (M : forall x, ef x <= ef2 x).
    { intros x. specialize (R1 x). unfold upd in R1.
      destruct (Nat.eqb x job) eqn:E; [apply Nat.eqb_eq in E; subst; lia|lia]. }
    assert (Ej : upd ef job e job = e) by (unfold upd; rewrite Nat.eqb_refl; reflexivity).
    rewrite Ej in R2.
    assert (S1 : forall s, In s (successors P job) -> durations P s <= ef2 s).
    { intros s Hs. specialize (R2 s Hs). specialize (H0 job). lia. }
    refine (IH _ _ _ _ _ H).
    + intros x. specialize (M x). specialize (H0 x). lia.
    + intros a Ha. apply in_app_or in Ha as [Ha|Ha].
      * destruct (Hq a (or_intror Ha)) as [Han Had]. split; [exact Han|].
        specialize (M a). lia.
      * split; [exact (wf_successors_range P HP job a Hjob Ha)|exact (S1 a Ha)].
    + intros j Hj. destruct (Hr j Hj) as [D|[a [[<-|Ha] Hpath]]].
      * left. specialize (M j). lia.
      * destruct (clos_trans_first _ _ _ Hpath) as [s [Hs [<-|Hsj]]].
        -- left. exact (S1 _ Hs).
        -- right. exists s. split; [apply in_or_app; right; exact Hs|exact Hsj].
      * right. exists a. split; [apply in_or_app; left; exact Ha|exact Hpath].
Qed.

Lemma ls_loop_bound (P : Problem) fuel q ls ls' :
  wf P ->
  (forall x, ls x <= horizon P) ->
  (forall a, In a q -> (a < njobs P)%nat /\ ls a + durations P a <= horizon P) ->
  (forall j, (j < njobs P)%nat ->
     ls j + durations P j <= horizon P \/ exists a, In a q /\ clos_trans nat (pred_edge P) a j) ->
  ls_loop P fuel q ls = Ok ls' ->
  forall j, (j < njobs P)%nat -> ls' j + durations P j <= horizon P.
Proof.
  intros HP. revert q ls; induction fuel as [|fuel IH]; intros q ls H0 Hq Hr H;
    simpl in H; [discriminate|].
  destruct q as [|job q].
  - injection H as <-. intros j Hj. destruct (Hr j Hj) as [D|[a [[] _]]]. exact D.
  - destruct (ls_advance P fuel job (ls job)) as [l| |] eqn:A; try discriminate.
    pose proof (ls_advance_le P fuel job _ _ A) as Al.
    destruct (Hq job (or_introl eq_refl)) as [Hjob _].
    destruct (ls_relax_spec P job (upd ls job l)) as [R1 R2].
    set (ls2 := ls_relax P job (upd ls job l)) in *.
    assert (M : forall x, ls2 x <= ls x).
    { intros x. specialize (R1 x). unfold upd in R1.
      destruct (Nat.eqb x job) eqn:E; [apply Nat.eqb_eq in E; subst; lia|lia]. }
    assert (Ej : upd ls job l job = l) by (unfold upd; rewrite Nat.eqb_refl; reflexivity).
    rewrite Ej in R2.
    assert (S1 : forall p, In p (predecessors P job) -> ls2 p + durations P p <= horizon P).
    { intros p Hp. specialize (R2 p Hp). specialize (H0 job). lia. }
    refine (IH _ _ _ _ _ H).
    + intros x. specialize (M x). specialize (H0 x). lia.
    + intros a Ha. apply in_app_or in Ha as [Ha|Ha].
      * destruct (Hq a (or_intror Ha)) as [Han Had]. split; [exact Han|].
        specialize (M a). lia.
      * split; [exact (wf_predecessors_range P HP job a Hjob Ha)|exact (S1 a Ha)].
    + intros j Hj. destruct (Hr j Hj) as [D|[a [[<-|Ha] Hpath]]].
      * left. specialize (M j). lia.
      * destruct (clos_trans_first _ _ _ Hpath) as [p [Hp [<-|Hpj]]].
        -- left. exact (S1 _ Hp).
        -- right. exists p. split; [apply in_or_app; right; exact Hp|exact Hpj].
      * right. exists a. split; [apply in_or_app; left; exact Ha|exact Hpath].
Qed.

(** *** C6 *)

(** Claim C6: for a well-formed instance, when neither preprocessing pass
    aborts, every activity [j] gets [ef[j] >= durations[j]] and
    [ls[j] + durations[j] <= horizon]. *)
Theorem preprocessing_bounds (P : Problem) (fuel : nat) (ef ls : nat -> Z) :
  wf P -> ef_pass P fuel = Ok ef -> ls_pass P fuel = Ok ls ->
  forall j, (j < njobs P)%nat ->
    durations P j <= ef j /\ ls j + durations P j <= horizon P.
Proof.
  intros HP Hef Hls j Hj. pose proof (wf_njobs P HP) as Hn. split.
  - refine (ef_loop_bound P fuel [0%nat] (fun _ => 0) ef HP _ _ _ Hef j Hj).
    + intros x. lia.
    + intros a [<-|[]]. split; [lia|]. rewrite (wf_source_duration P HP). lia.
    + intros i Hi. destruct i as [|i].
      * left. rewrite (wf_source_duration P HP). lia.
      * right. exists 0%nat. split; [left; reflexivity|]. apply (wf_source P HP). lia.
  - refine (ls_loop_bound P fuel [sink P] (fun _ => horizon P) ls HP _ _ _ Hls j Hj).
    + intros x. lia.
    + intros a [<-|[]]. split; [unfold sink; lia|]. rewrite (wf_sink_duration P HP). lia.
    + intros i Hi. destruct (Nat.eq_dec i (sink P)) as [->|Hne].
      * left. rewrite (wf_sink_duration P HP). lia.
      * right. exists (sink P). split; [left; reflexivity|].
        apply (path_reverse P i (sink P) HP); [apply (wf_sink P HP); unfold sink in *; lia|exact Hi].
Qed.

Lemma preprocessing_bounds_witness :
  match ef_pass (chain3 5) 100, ls_pass (chain3 5) 100 with
  | Ok ef, Ok ls =>
      forall j, (j < 3)%nat ->
        durations (chain3 5) j <= ef j /\ ls j + durations (chain3 5) j <= horizon (chain3 5)
  | _, _ => False
  end.
Proof.
  destruct (ef_pass (chain3 5) 100) as [ef| |] eqn:E1;
    [|vm_compute in E1; discriminate|vm_compute in E1; discriminate].
  destruct (ls_pass (chain3 5) 100) as [ls| |] eqn:E2;
    [|vm_compute in E2; discriminate|vm_compute in E2; discriminate].
  intros j Hj. exact (preprocessing_bounds (chain3 5) 100 ef ls chain3_wf E1 E2 j Hj).
Defined.

(** ** The order of [double] comparisons *)

(** [SFcompare] orders non-NaN values lexicographically by this key. *)
Definition fkey (f : spec_float) : Z * Z * Z :=
  match f with
  | S754_zero _ => (0, 0, 0)
  | S754_infinity s => if s then (-2, 0, 0) else (2, 0, 0)
  | S754_nan => (0, 0, 0)
  | S754_finite s m e => if s then (-1, - e, Zneg m) else (1, e, Zpos m)
  end.

Definition kcmp (a b : Z * Z * Z) : comparison :=
  let '(a1, a2, a3) := a in
  let '(b1, b2, b3) := b in
  match Z.compare a1 b1 with
  | Eq => match Z.compare a2 b2 with Eq => Z.compare a3 b3 | c => c end
  | c => c
  end.

Definition klt (a b : Z * Z * Z) : Prop :=
  let '(a1, a2, a3) := a in
  let '(b1, b2, b3) := b in
  a1 < b1 \/ (a1 = b1 /\ (a2 < b2 \/ (a2 = b2 /\ a3 < b3))).

Lemma SFcompare_kcmp f1 f2 :
  f1 <> S754_nan -> f2 <> S754_nan -> SFcompare f1 f2 = Some (kcmp (fkey f1) (fkey f2)).
Proof.
  intros H1 H2.
  destruct f1 as [s1|s1| |s1 m1 e1]; [| |congruence|];
  destruct f2 as [s2|s2| |s2 m2 e2]; try congruence;
  destruct s1, s2; try reflexivity; simpl.
  - rewrite Z.compare_opp, (Z.compare_antisym e1 e2). destruct (e1 ?= e2)%Z; reflexivity.
Qed.


Lemma kcmp_gt a b : kcmp a b = Gt <-> klt b a.
Proof.
  destruct a as [[a1 a2] a3], b as [[b1 b2] b3]; simpl.
  destruct (Z.compare_spec a1 b1); [destruct (Z.compare_spec a2 b2);
    [destruct (Z.compare_spec a3 b3)| |]| |]; split; intros; try discriminate; try reflexivity; lia.
Qed.

Lemma not_nan_spec x : is_nan x = false -> Prim2SF x <> S754_nan.
Proof.
  unfold is_nan. rewrite FloatAxioms.eqb_spec. intros H E. rewrite E in H. discriminate.
Qed.

Lemma fleb_key x y : is_nan x = false -> is_nan y = false ->
  ((x <=? y)%float = true <-> ~ klt (fkey (Prim2SF y)) (fkey (Prim2SF x))).
Proof.
  intros Hx Hy. rewrite FloatAxioms.leb_spec. unfold SFleb.
  rewrite (SFcompare_kcmp _ _ (not_nan_spec x Hx) (not_nan_spec y Hy)), <- kcmp_gt.
  destruct (kcmp _ _); split; intros H; try discriminate; try reflexivity; congruence.
Qed.


Ltac fkeys :=
  repeat match goal with
  | |- context [fkey (Prim2SF ?x)] =>
      let k := fresh "k" in destruct (fkey (Prim2SF x)) as [[? ?] ?] eqn:k; clear k
  | H : context [fkey (Prim2SF ?x)] |- _ =>
      let k := fresh "k" in destruct (fkey (Prim2SF x)) as [[? ?] ?] eqn:k; clear k
  end; simpl in *.

Lemma fleb_refl x : is_nan x = false -> (x <=? x)%float = true.
Proof. intros Hx. apply fleb_key; [exact Hx|exact Hx|]. fkeys. lia. Qed.




(** ** The tournament of one iteration *)




(** *** C8 *)



(** *** C7 *)

(** Claim C7, refuted: activity 1 of [orphan3] has no predecessor and
    duration 2, yet its initial candidate is the running maximum's start
    value [-1], not 2; the loop accepts [-1] (no resource to check) and
    [solve] reports success with [out[1] = -1]. *)
Lemma finish0_no_pred_counterexample :
  predecessors orphan3 1 = [] /\
  finish0 orphan3 (schedule (pass_init orphan3 (zeros 0%nat) 0)) 1 = -1 /\
  durations orphan3 1 = 2 /\
  match solve 100 orphan3 (zeros 0%Q) (zeros 0%nat) (zeros 0%float) (zeros 7) with
  | Some (true, o) => o 1%nat = -1
  | _ => False
  end.
Proof. vm_compute. repeat split; reflexivity. Qed.

(** Claim C7, as the code has it: the initial candidate is the running
    maximum of [schedule[p] + durations[winner]] over the predecessors,
    started at [-1] (so [-1] when there is none); the placement loop then
    returns the first candidate [f >= finish0] at which the winner fits the
    remaining availabilities, and [f <= horizon]. *)
Theorem placement_from_finish0 (P : Problem) (fuel : nat) (avail : nat -> Z -> Z)
    (sched : nat -> Z) (w : nat) (f : Z) :
  place P fuel avail w (finish0 P sched w) = Ok f ->
  (predecessors P w = [] -> finish0 P sched w = -1) /\
  -1 <= finish0 P sched w /\
  (forall p, In p (predecessors P w) -> sched p + durations P w <= finish0 P sched w) /\
  (finish0 P sched w = -1 \/
   exists p, In p (predecessors P w) /\ finish0 P sched w = sched p + durations P w) /\
  finish0 P sched w <= f /\ f <= horizon P /\
  fits P avail w (f - durations P w) = true /\
  (forall f', finish0 P sched w <= f' < f -> fits P avail w (f' - durations P w) = false).
Proof.
  intros H. destruct (finish0_spec P sched w) as (F1&F2&F3).
  destruct (place_spec P fuel avail w _ f H) as (L1&L2&L3&L4).
  split; [intros E; unfold finish0; rewrite E; reflexivity|].
  repeat split; assumption.
Qed.

Lemma placement_from_finish0_witness :
  let sched := schedule (pass_init (chain3 5) (zeros 0%nat) 0) in
  place (chain3 5) 100 (capacities (chain3 5)) 1 (finish0 (chain3 5) sched 1) = Ok 3 /\
  (predecessors (chain3 5) 1 = [] -> finish0 (chain3 5) sched 1 = -1) /\
  -1 <= finish0 (chain3 5) sched 1 /\
  (forall p, In p (predecessors (chain3 5) 1) ->
     sched p + durations (chain3 5) 1 <= finish0 (chain3 5) sched 1) /\
  (finish0 (chain3 5) sched 1 = -1 \/
   exists p, In p (predecessors (chain3 5) 1) /\
     finish0 (chain3 5) sched 1 = sched p + durations (chain3 5) 1) /\
  finish0 (chain3 5) sched 1 <= 3 /\ 3 <= horizon (chain3 5) /\
  fits (chain3 5) (capacities (chain3 5)) 1 (3 - durations (chain3 5) 1) = true /\
  (forall f', finish0 (chain3 5) sched 1 <= f' < 3 ->
     fits (chain3 5) (capacities (chain3 5)) 1 (f' - durations (chain3 5) 1) = false).
Proof.
  intros sched.
  assert (E : place (chain3 5) 100 (capacities (chain3 5)) 1 (finish0 (chain3 5) sched 1) = Ok 3)
    by (vm_compute; reflexivity).
  split; [exact E|].
  exact (placement_from_finish0 (chain3 5) 100 (capacities (chain3 5)) sched 1 3 E).
Defined.

(** *** C4 *)

(** Claim C4, a divergence of the code: on [chain4] (with a zeroed [ru]
    buffer) the value the pass leaves in [ru[1]] differs from the formula
    over the successors of activity 1, because the loop of line 157 reads
    [ru[0]], indexed by its counter, instead of [ru[2]]. *)
Theorem ru_successor_index_diverges :
  match ef_pass chain4 100, ls_pass chain4 100 with
  | Ok ef, Ok ls =>
      match ru_pass chain4 100 ef ls (zeros 0%float) with
      | Ok ru => ru 1%nat <> ru_formula chain4 ef ls ru 1%nat
      | _ => False
      end
  | _, _ => False
  end.
Proof.
  vm_compute. intros H. apply (f_equal Prim2SF) in H. vm_compute in H. discriminate H.
Qed.

(** ** The utilisation pass *)

Lemma ru_fold_other (job : nat) (l : list nat) (ru : nat -> float) x :
  x <> job ->
  fold_left (fun ru successor => upd ru job (ru job + OMEGA2 * ru successor)%float) l ru x = ru x.
Proof.
  revert ru; induction l as [|a l IH]; intros ru Hx; simpl; [reflexivity|].
  rewrite IH by exact Hx. unfold upd. apply Nat.eqb_neq in Hx. rewrite Hx. reflexivity.
Qed.

Lemma ru_step_other (P : Problem) ef ls job ru x :
  x <> job -> ru_step P ef ls job ru x = ru x.
Proof.
  intros Hx. unfold ru_step.
  destruct (_ || _); [unfold upd at 1; rewrite (proj2 (Nat.eqb_neq x job) Hx)|];
    rewrite ru_fold_other by exact Hx; unfold upd; rewrite (proj2 (Nat.eqb_neq x job) Hx);
    reflexivity.
Qed.

Lemma ru_step_clamped (P : Problem) ef ls job ru :
  is_nan (ru_step P ef ls job ru job) = false /\ (ru_step P ef ls job ru job <? 0)%float = false.
Proof.
  unfold ru_step. set (v := fold_left _ _ _ job).
  destruct (is_nan v) eqn:N; simpl.
  - unfold upd. rewrite Nat.eqb_refl. split; reflexivity.
  - destruct (v <? 0)%float eqn:L; simpl.
    + unfold upd. rewrite Nat.eqb_refl. split; reflexivity.
    + split; assumption.
Qed.

Lemma ru_loop_clamped (P : Problem) fuel ef ls q ru ru' :
  (forall j, (j < njobs P)%nat ->
     (is_nan (ru j) = false /\ (ru j <? 0)%float = false) \/
     exists a, In a q /\ (a = j \/ clos_trans nat (pred_edge P) a j)) ->
  ru_loop P fuel ef ls q ru = Ok ru' ->
  forall j, (j < njobs P)%nat -> is_nan (ru' j) = false /\ (ru' j <? 0)%float = false.
Proof.
  revert q ru; induction fuel as [|fuel IH]; intros q ru Hr H; simpl in H; [discriminate|].
  destruct q as [|job q].
  - injection H as <-. intros j Hj. destruct (Hr j Hj) as [G|[a [[] _]]]. exact G.
  - refine (IH _ _ _ H). intros j Hj.
    destruct (Nat.eq_dec j job) as [->|Hne].
    { left. apply ru_step_clamped. }
    rewrite (ru_step_other P ef ls job ru j Hne).
    destruct (Hr j Hj) as [G|[a [[<-|Ha] Hpath]]].
    + left. exact G.
    + destruct Hpath as [->|Hpath]; [congruence|].
      destruct (clos_trans_first _ _ _ Hpath) as [p [Hp Hpj]].
      right. exists p. split; [apply in_or_app; right; exact Hp|exact Hpj].
    + right. exists a. split; [apply in_or_app; left; exact Ha|exact Hpath].
Qed.

(** *** C5 *)

(** Claim C5, a divergence of the code: when the uninitialised buffer behind [ru] holds
    [+inf], processing activity 1 of [chain3 5] (a well-formed instance)
    adds [OMEGA2 * ru[0]] before [ru[0]] is computed, and the clamp, which
    only catches NaN and negative values, leaves [ru[1] = +inf]. *)
Lemma ru_finite_counterexample :
  match ef_pass (chain3 5) 100, ls_pass (chain3 5) 100 with
  | Ok ef, Ok ls =>
      match ru_pass (chain3 5) 100 ef ls (zeros infinity) with
      | Ok ru => ru 1%nat = infinity /\ is_finite (ru 1%nat) = false
      | _ => False
      end
  | _, _ => False
  end.
Proof. vm_compute. split; reflexivity. Qed.

(** Extra: for a well-formed instance every activity
    is processed by the utilisation pass, and the clamp of line 159 leaves
    every [ru[j]] neither NaN nor below 0; finiteness is not enforced. *)
Theorem ru_pass_clamped (P : Problem) (fuel : nat) (ef ls : nat -> Z)
    (ru0 ru : nat -> float) :
  wf P -> ru_pass P fuel ef ls ru0 = Ok ru ->
  forall j, (j < njobs P)%nat -> is_nan (ru j) = false /\ (ru j <? 0)%float = false.
Proof.
  intros HP H. refine (ru_loop_clamped P fuel ef ls [sink P] ru0 ru _ H).
  intros j Hj. right. exists (sink P). split; [left; reflexivity|].
  destruct (Nat.eq_dec j (sink P)) as [->|Hne]; [left; reflexivity|right].
  apply (path_reverse P j (sink P) HP); [apply (wf_sink P HP); unfold sink in *; lia|exact Hj].
Qed.

Lemma ru_pass_clamped_witness :
  match ef_pass (chain3 5) 100, ls_pass (chain3 5) 100 with
  | Ok ef, Ok ls =>
      match ru_pass (chain3 5) 100 ef ls (zeros 0%float) with
      | Ok ru => forall j, (j < 3)%nat -> is_nan (ru j) = false /\ (ru j <? 0)%float = false
      | _ => False
      end
  | _, _ => False
  end.
Proof.
  destruct (ef_pass (chain3 5) 100) as [ef| |] eqn:E1;
    [|vm_compute in E1; discriminate|vm_compute in E1; discriminate].
  destruct (ls_pass (chain3 5) 100) as [ls| |] eqn:E2;
    [|vm_compute in E2; discriminate|vm_compute in E2; discriminate].
  destruct (ru_pass (chain3 5) 100 ef ls (zeros 0%float)) as [ru| |] eqn:E3.
  - exact (ru_pass_clamped (chain3 5) 100 ef ls (zeros 0%float) ru chain3_wf E3).
  - exfalso. vm_compute in E1, E2. injection E1 as <-. injection E2 as <-.
    vm_compute in E3. discriminate E3.
  - exfalso. vm_compute in E1, E2. injection E1 as <-. injection E2 as <-.
    vm_compute in E3. discriminate E3.
Defined.

(** ** Extra properties: the preprocessing passes *)

Lemma ef_advance_ok (P : Problem) fuel job e e' :
  ef_advance P fuel job e = Ok e' ->
  fits P (capacities P) job (e' - durations P job) = true /\ e' <= horizon P.
Proof.
  revert e; induction fuel as [|fuel IH]; intros e H; simpl in H; [discriminate|].
  destruct (fits P (capacities P) job (e - durations P job)) eqn:F;
    destruct (horizon P <? _) eqn:E; try discriminate.
  - injection H as <-. apply Z.ltb_ge in E. split; assumption.
  - exact (IH _ H).
Qed.

Lemma ls_advance_ok (P : Problem) fuel job l l' :
  ls_advance P fuel job l = Ok l' -> fits P (capacities P) job l' = true /\ 0 <= l'.
Proof.
  revert l; induction fuel as [|fuel IH]; intros l H; simpl in H; [discriminate|].
  destruct (fits P (capacities P) job l) eqn:F; destruct (_ <? 0) eqn:E; try discriminate.
  - injection H as <-. apply Z.ltb_ge in E. split; assumption.
  - exact (IH _ H).
Qed.

Lemma ef_relax_other (P : Problem) job ef x :
  ~ In x (successors P job) -> ef_relax P job ef x = ef x.
Proof.
  unfold ef_relax. generalize (successors P job) as l. intros l; revert ef.
  induction l as [|a l IH]; intros ef Hx; simpl; [reflexivity|].
  rewrite IH by (intros H; apply Hx; right; exact H).
  destruct (ef a <? _); [|reflexivity]. unfold upd.
  destruct (Nat.eqb x a) eqn:E; [|reflexivity].
  apply Nat.eqb_eq in E; subst. exfalso. apply Hx. left. reflexivity.
Qed.

Lemma ls_relax_other (P : Problem) job ls x :
  ~ In x (predecessors P job) -> ls_relax P job ls x = ls x.
Proof.
  unfold ls_relax. generalize (predecessors P job) as l. intros l; revert ls.
  induction l as [|a l IH]; intros ls Hx; simpl; [reflexivity|].
  rewrite IH by (intros H; apply Hx; right; exact H).
  destruct (_ <? ls a); [|reflexivity]. unfold upd.
  destruct (Nat.eqb x a) eqn:E; [|reflexivity].
  apply Nat.eqb_eq in E; subst. exfalso. apply Hx. left. reflexivity.
Qed.

Lemma ef_loop_good (P : Problem) fuel q ef ef' :
  wf P ->
  (forall a, In a q -> (a < njobs P)%nat) ->
  (forall j, (j < njobs P)%nat ->
     ef_good P ef j \/ exists a, In a q /\ (a = j \/ clos_trans nat (succ_edge P) a j)) ->
  ef_loop P fuel q ef = Ok ef' ->
  forall j, (j < njobs P)%nat -> ef_good P ef' j.
Proof.
  intros HP. destruct (wf_acyclic P HP) as [rank Hrank].
  revert q ef; induction fuel as [|fuel IH]; intros q ef Hq Hinv H; simpl in H; [discriminate|].
  destruct q as [|job q].
  - injection H as <-. intros j Hj. destruct (Hinv j Hj) as [G|[a [[] _]]]. exact G.
  - destruct (ef_advance P fuel job (ef job)) as [e| |] eqn:Ea; try discriminate.
    destruct (ef_advance_ok P fuel job _ e Ea) as [Fe He].
    pose proof (ef_advance_ge P fuel job _ e Ea) as Ge.
    assert (Hjob : (job < njobs P)%nat) by (apply Hq; left; reflexivity).
    assert (Nself : ~ In job (successors P job)).
    { intros Hs. pose proof (Hrank job job Hjob (proj2 (wf_adjacency P HP job job Hjob Hjob) Hs)).
      lia. }
    destruct (ef_relax_spec P job (upd ef job e)) as [R1 R2].
    assert (E1 : upd ef job e job = e) by (unfold upd; rewrite Nat.eqb_refl; reflexivity).
    assert (Ejob : ef_relax P job (upd ef job e) job = e)
      by (rewrite (ef_relax_other P job _ job Nself); exact E1).
    assert (Mono : forall x, ef x <= ef_relax P job (upd ef job e) x).
    { intros x. specialize (R1 x). destruct (Nat.eq_dec x job) as [->|Hx].
      - rewrite E1 in R1. lia.
      - assert (U : upd ef job e x = ef x)
          by (unfold upd; rewrite (proj2 (Nat.eqb_neq x job) Hx); reflexivity).
        rewrite U in R1. lia. }
    refine (IH _ _ _ _ H).
    + intros a Ha. apply in_app_or in Ha. destruct Ha as [Ha|Ha].
      * apply Hq. right. exact Ha.
      * exact (wf_successors_range P HP job a Hjob Ha).
    + intros j Hj. destruct (Nat.eq_dec j job) as [->|Hne].
      { left. unfold ef_good. rewrite Ejob. split; [exact Fe|split; [exact He|]].
        intros s Hs. specialize (R2 s Hs). rewrite E1 in R2. exact R2. }
      destruct (in_dec Nat.eq_dec j (successors P job)) as [Hin|Hout].
      { right. exists j. split; [apply in_or_app; right; exact Hin|left; reflexivity]. }
      destruct (Hinv j Hj) as [G|[a [[<-|Ha] Hpath]]].
      * left. destruct G as (G1&G2&G3). unfold ef_good.
        assert (Ej : ef_relax P job (upd ef job e) j = ef j).
        { rewrite (ef_relax_other P job _ j Hout). unfold upd.
          rewrite (proj2 (Nat.eqb_neq j job) Hne). reflexivity. }
        rewrite Ej. split; [exact G1|split; [exact G2|]].
        intros s Hs. specialize (G3 s Hs). specialize (Mono s). lia.
      * destruct Hpath as [->|Hpath]; [congruence|].
        destruct (clos_trans_first _ _ _ Hpath) as [b [Hb Hbj]].
        right. exists b. split; [apply in_or_app; right; exact Hb|exact Hbj].
      * right. exists a. split; [apply in_or_app; left; exact Ha|exact Hpath].
Qed.

Lemma ls_loop_good (P : Problem) fuel q ls ls' :
  wf P ->
  (forall a, In a q -> (a < njobs P)%nat) ->
  (forall j, (j < njobs P)%nat ->
     ls_good P ls j \/ exists a, In a q /\ (a = j \/ clos_trans nat (pred_edge P) a j)) ->
  ls_loop P fuel q ls = Ok ls' ->
  forall j, (j < njobs P)%nat -> ls_good P ls' j.
Proof.
  intros HP. destruct (wf_acyclic P HP) as [rank Hrank].
  revert q ls; induction fuel as [|fuel IH]; intros q ls Hq Hinv H; simpl in H; [discriminate|].
  destruct q as [|job q].
  - injection H as <-. intros j Hj. destruct (Hinv j Hj) as [G|[a [[] _]]]. exact G.
  - destruct (ls_advance P fuel job (ls job)) as [l| |] eqn:Ea; try discriminate.
    destruct (ls_advance_ok P fuel job _ l Ea) as [Fl Hl].
    pose proof (ls_advance_le P fuel job _ l Ea) as Le.
    assert (Hjob : (job < njobs P)%nat) by (apply Hq; left; reflexivity).
    assert (Nself : ~ In job (predecessors P job))
      by (intros Hs; pose proof (Hrank job job Hjob Hs); lia).
    destruct (ls_relax_spec P job (upd ls job l)) as [R1 R2].
    assert (E1 : upd ls job l job = l) by (unfold upd; rewrite Nat.eqb_refl; reflexivity).
    assert (Ejob : ls_relax P job (upd ls job l) job = l)
      by (rewrite (ls_relax_other P job _ job Nself); exact E1).
    assert (Mono : forall x, ls_relax P job (upd ls job l) x <= ls x).
    { intros x. specialize (R1 x). destruct (Nat.eq_dec x job) as [->|Hx].
      - rewrite E1 in R1. lia.
      - assert (U : upd ls job l x = ls x)
          by (unfold upd; rewrite (proj2 (Nat.eqb_neq x job) Hx); reflexivity).
        rewrite U in R1. lia. }
    refine (IH _ _ _ _ H).
    + intros a Ha. apply in_app_or in Ha. destruct Ha as [Ha|Ha].
      * apply Hq. right. exact Ha.
      * exact (wf_predecessors_range P HP job a Hjob Ha).
    + intros j Hj. destruct (Nat.eq_dec j job) as [->|Hne].
      { left. unfold ls_good. rewrite Ejob. split; [exact Fl|split; [exact Hl|]].
        intros p Hp. specialize (R2 p Hp). rewrite E1 in R2. lia. }
      destruct (in_dec Nat.eq_dec j (predecessors P job)) as [Hin|Hout].
      { right. exists j. split; [apply in_or_app; right; exact Hin|left; reflexivity]. }
      destruct (Hinv j Hj) as [G|[a [[<-|Ha] Hpath]]].
      * left. destruct G as (G1&G2&G3). unfold ls_good.
        assert (Ej : ls_relax P job (upd ls job l) j = ls j).
        { rewrite (ls_relax_other P job _ j Hout). unfold upd.
          rewrite (proj2 (Nat.eqb_neq j job) Hne). reflexivity. }
        rewrite Ej. split; [exact G1|split; [exact G2|]].
        intros p Hp. specialize (G3 p Hp). specialize (Mono p). lia.
      * destruct Hpath as [->|Hpath]; [congruence|].
        destruct (clos_trans_first _ _ _ Hpath) as [b [Hb Hbj]].
        right. exists b. split; [apply in_or_app; right; exact Hb|exact Hbj].
      * right. exists a. split; [apply in_or_app; left; exact Ha|exact Hpath].
Qed.

(** Extra: for a well-formed instance, when the earliest-finish pass
    completes, every activity [j] fits the capacities over
    [ef[j] - durations[j], ef[j]), [ef[j] <= horizon], and every successor
    [s] of [j] has [ef[s] >= ef[j] + durations[s]]. *)
Theorem ef_pass_feasible_edges (P : Problem) (fuel : nat) (ef : nat -> Z) :
  wf P -> ef_pass P fuel = Ok ef ->
  forall j, (j < njobs P)%nat ->
    fits P (capacities P) j (ef j - durations P j) = true /\ ef j <= horizon P /\
    forall s, In s (successors P j) -> ef j + durations P s <= ef s.
Proof.
  intros HP H j Hj.
  refine (ef_loop_good P fuel [0%nat] (fun _ => 0) ef HP _ _ H j Hj).
  - intros a [<-|[]]. pose proof (wf_njobs P HP). lia.
  - intros i Hi. right. exists 0%nat. split; [left; reflexivity|].
    destruct i as [|i]; [left; reflexivity|right; apply (wf_source P HP); lia].
Qed.

Lemma ef_pass_feasible_edges_witness :
  match ef_pass (chain3 5) 100 with
  | Ok ef => forall j, (j < 3)%nat ->
      fits (chain3 5) (capacities (chain3 5)) j (ef j - durations (chain3 5) j) = true /\
      ef j <= horizon (chain3 5) /\
      forall s, In s (successors (chain3 5) j) -> ef j + durations (chain3 5) s <= ef s
  | _ => False
  end.
Proof.
  destruct (ef_pass (chain3 5) 100) as [ef| |] eqn:E.
  - exact (ef_pass_feasible_edges (chain3 5) 100 ef chain3_wf E).
  - vm_compute in E. discriminate.
  - vm_compute in E. discriminate.
Defined.

(** Extra: for a well-formed instance, when the latest-start pass
    completes, every activity [j] fits the capacities from [ls[j]],
    [ls[j] >= 0], and every predecessor [p] of [j] has
    [ls[p] + durations[p] <= ls[j]]. *)
Theorem ls_pass_feasible_edges (P : Problem) (fuel : nat) (ls : nat -> Z) :
  wf P -> ls_pass P fuel = Ok ls ->
  forall j, (j < njobs P)%nat ->
    fits P (capacities P) j (ls j) = true /\ 0 <= ls j /\
    forall p, In p (predecessors P j) -> ls p + durations P p <= ls j.
Proof.
  intros HP H j Hj. pose proof (wf_njobs P HP) as Hn.
  refine (ls_loop_good P fuel [sink P] (fun _ => horizon P) ls HP _ _ H j Hj).
  - intros a [<-|[]]. unfold sink. lia.
  - intros i Hi. right. exists (sink P). split; [left; reflexivity|].
    destruct (Nat.eq_dec i (sink P)) as [->|Hne]; [left; reflexivity|right].
    apply (path_reverse P i (sink P) HP); [apply (wf_sink P HP); unfold sink in *; lia|exact Hi].
Qed.

Lemma ls_pass_feasible_edges_witness :
  match ls_pass (chain3 5) 100 with
  | Ok ls => forall j, (j < 3)%nat ->
      fits (chain3 5) (capacities (chain3 5)) j (ls j) = true /\ 0 <= ls j /\
      forall p, In p (predecessors (chain3 5) j) -> ls p + durations (chain3 5) p <= ls j
  | _ => False
  end.
Proof.
  destruct (ls_pass (chain3 5) 100) as [ls| |] eqn:E.
  - exact (ls_pass_feasible_edges (chain3 5) 100 ls chain3_wf E).
  - vm_compute in E. discriminate.
  - vm_compute in E. discriminate.
Defined.

(** ** Extra properties: [checkValid] *)

Lemma zsum_app l1 l2 : zsum (l1 ++ l2) = zsum l1 + zsum l2.
Proof. unfold zsum. induction l1 as [|a l1 IH]; simpl; lia. Qed.

Lemma zsum_flat_map {A B : Type} (g : B -> Z) (f : A -> list B) l :
  zsum (map g (flat_map f l)) = zsum (map (fun x => zsum (map g (f x))) l).
Proof.
  induction l as [|a l IH]; [reflexivity|].
  cbn [flat_map]. rewrite map_app, zsum_app, IH. cbn [map]. rewrite zsum_cons. reflexivity.
Qed.

Lemma NoDup_map_inj {A B : Type} (f : A -> B) l :
  (forall x y, f x = f y -> x = y) -> NoDup l -> NoDup (map f l).
Proof.
  intros Hf H. induction H as [|a l Ha Hl IH]; simpl; constructor; [|exact IH].
  intros Hin. apply in_map_iff in Hin. destruct Hin as [x [Hx Hxl]].
  apply Hf in Hx. subst. contradiction.
Qed.

Lemma NoDup_zrange a b : NoDup (zrange a b).
Proof.
  unfold zrange. apply NoDup_map_inj; [intros x y E; lia|apply seq_NoDup].
Qed.

Lemma zsum_map_zero_any {A : Type} (g : A -> Z) l :
  (forall x, In x l -> g x = 0) -> zsum (map g l) = 0.
Proof.
  induction l as [|a l IH]; intros H; [reflexivity|]. cbn [map]. rewrite zsum_cons.
  rewrite (H a (or_introl eq_refl)), IH; [reflexivity|]. intros x Hx. apply H. right. exact Hx.
Qed.

Lemma zsum_single {A : Type} (dec : forall x y : A, {x = y} + {x <> y}) (g : A -> Z) l a :
  NoDup l -> In a l -> (forall x, In x l -> x <> a -> g x = 0) -> zsum (map g l) = g a.
Proof.
  intros H. induction H as [|b l Hb Hl IH]; intros Ha Hz; [destruct Ha|].
  cbn [map]. rewrite zsum_cons. destruct (dec b a) as [->|Hne].
  - rewrite zsum_map_zero_any; [lia|]. intros x Hx. apply Hz; [right; exact Hx|].
    intros ->. contradiction.
  - rewrite (Hz b (or_introl eq_refl) Hne). destruct Ha as [->|Ha]; [congruence|].
    rewrite IH; [lia|exact Ha|]. intros x Hx. apply Hz. right. exact Hx.
Qed.

Lemma in_cv_cells (P : Problem) job k t :
  In (job, k, t) (cv_cells P) <->
  (job < njobs P)%nat /\ (k < nresources P)%nat /\ 0 <= t < durations P job.
Proof.
  unfold cv_cells. rewrite in_flat_map. split.
  - intros [j [Hj Hin]]. apply in_flat_map in Hin. destruct Hin as [k' [Hk Hin]].
    apply in_map_iff in Hin. destruct Hin as [t' [E Ht]]. injection E as <- <- <-.
    apply in_seq in Hj. apply in_seq in Hk. apply in_zrange in Ht. lia.
  - intros (Hj&Hk&Ht). exists job. split; [apply in_seq; lia|].
    apply in_flat_map. exists k. split; [apply in_seq; lia|].
    apply in_map_iff. exists t. split; [reflexivity|apply in_zrange; exact Ht].
Qed.

Lemma cv_demand_cons (P : Problem) sol j k' t rest k T :
  cv_demand P sol ((j, k', t) :: rest) k T =
  (if Nat.eqb k' k && (sol j - durations P j + t =? T) then requests P j k' t else 0) +
  cv_demand P sol rest k T.
Proof. unfold cv_demand. cbn [map]. rewrite zsum_cons. reflexivity. Qed.

Lemma cv_demand_nonneg (P : Problem) sol cells k T :
  (forall j k' t, In (j, k', t) cells -> 0 <= requests P j k' t) ->
  0 <= cv_demand P sol cells k T.
Proof.
  induction cells as [|[[j k'] t] rest IH]; intros Hn; [unfold cv_demand; simpl; lia|].
  rewrite cv_demand_cons. pose proof (Hn j k' t (or_introl eq_refl)) as H0.
  assert (0 <= cv_demand P sol rest k T)
    by (apply IH; intros j' k'' t' Hin; apply (Hn j' k'' t'); right; exact Hin).
  destruct (_ && _); lia.
Qed.

Lemma cv_touched (P : Problem) sol cells k T :
  (exists j t, In (j, k, t) cells /\ sol j - durations P j + t = T) \/
  cv_demand P sol cells k T = 0.
Proof.
  induction cells as [|[[j k'] t] rest IH]; [right; reflexivity|].
  rewrite cv_demand_cons.
  destruct (Nat.eqb k' k && (sol j - durations P j + t =? T)) eqn:E.
  - apply andb_true_iff in E. destruct E as [E1 E2].
    apply Nat.eqb_eq in E1. apply Z.eqb_eq in E2. subst k'.
    left. exists j, t. split; [left; reflexivity|exact E2].
  - destruct IH as [(j'&t'&Hin&HT)|Z0].
    + left. exists j', t'. split; [right; exact Hin|exact HT].
    + right. lia.
Qed.

(** When the resource loop runs to its end, at every visited cell the
    requests of all visits to that cell fit the initial availability. *)
Lemma cv_run_true (P : Problem) sol cells avail :
  cv_run P sol cells avail = true ->
  forall job k t, In (job, k, t) cells ->
    cv_demand P sol cells k (sol job - durations P job + t) <=
    avail k (sol job - durations P job + t).
Proof.
  revert avail; induction cells as [|[[j0 k0] t0] rest IH]; intros avail H job k t Hin;
    [destruct Hin|].
  simpl in H. rewrite Nat.eqb_refl, Z.eqb_refl in H. cbn [andb] in H.
  set (curr := sol j0 - durations P j0 + t0) in *.
  set (avail' := fun k' t' => if Nat.eqb k' k0 && (t' =? curr)
                              then avail k' t' - requests P j0 k0 t0 else avail k' t') in *.
  assert (A0 : avail' k0 curr = avail k0 curr - requests P j0 k0 t0)
    by (unfold avail'; rewrite Nat.eqb_refl, Z.eqb_refl; reflexivity).
  destruct (avail k0 curr - requests P j0 k0 t0 <? 0) eqn:C; [discriminate|].
  apply Z.ltb_ge in C.
  specialize (IH avail' H).
  rewrite cv_demand_cons. fold curr. set (T := sol job - durations P job + t).
  destruct (Nat.eq_dec k0 k) as [<-|Hk]; [destruct (Z.eq_dec curr T) as [HT|HT]|].
  - rewrite Nat.eqb_refl. rewrite <- HT, Z.eqb_refl. simpl.
    destruct (cv_touched P sol rest k0 curr) as [(j'&t'&Hin'&HT')|Z0].
    + specialize (IH j' k0 t' Hin'). rewrite HT' in IH. lia.
    + lia.
  - rewrite Nat.eqb_refl. replace (curr =? T) with false by (symmetry; apply Z.eqb_neq; exact HT).
    simpl. destruct Hin as [E|Hin].
    + inversion E; subst. exfalso. apply HT. reflexivity.
    + specialize (IH job k0 t Hin). fold T in IH.
      assert (A : avail' k0 T = avail k0 T).
      { unfold avail'. rewrite Nat.eqb_refl.
        replace (T =? curr) with false by (symmetry; apply Z.eqb_neq; congruence). reflexivity. }
      lia.
  - replace (Nat.eqb k0 k) with false by (symmetry; apply Nat.eqb_neq; exact Hk). simpl.
    destruct Hin as [E|Hin]; [inversion E; subst; congruence|].
    specialize (IH job k t Hin). fold T in IH.
    assert (A : avail' k T = avail k T).
    { unfold avail'. replace (Nat.eqb k k0) with false by (symmetry; apply Nat.eqb_neq; congruence).
      reflexivity. }
    lia.
Qed.

(** Conversely, with non-negative requests, the loop runs to its end when
    every visited cell has room for all its visits. *)
Lemma cv_run_ok (P : Problem) sol cells avail :
  (forall j k t, In (j, k, t) cells -> 0 <= requests P j k t) ->
  (forall job k t, In (job, k, t) cells ->
     cv_demand P sol cells k (sol job - durations P job + t) <=
     avail k (sol job - durations P job + t)) ->
  cv_run P sol cells avail = true.
Proof.
  revert avail; induction cells as [|[[j0 k0] t0] rest IH]; intros avail Hn Hd; [reflexivity|].
  simpl. rewrite Nat.eqb_refl, Z.eqb_refl. cbn [andb].
  set (curr := sol j0 - durations P j0 + t0).
  set (avail' := fun k' t' => if Nat.eqb k' k0 && (t' =? curr)
                              then avail k' t' - requests P j0 k0 t0 else avail k' t').
  assert (Hn' : forall j k t, In (j, k, t) rest -> 0 <= requests P j k t)
    by (intros j k t H; apply Hn; right; exact H).
  assert (A0 : avail' k0 curr = avail k0 curr - requests P j0 k0 t0)
    by (unfold avail'; rewrite Nat.eqb_refl, Z.eqb_refl; reflexivity).
  pose proof (Hd j0 k0 t0 (or_introl eq_refl)) as H0. fold curr in H0.
  rewrite cv_demand_cons, Nat.eqb_refl, Z.eqb_refl in H0. simpl in H0.
  pose proof (cv_demand_nonneg P sol rest k0 curr Hn').
  replace (avail k0 curr - requests P j0 k0 t0 <? 0) with false
    by (symmetry; apply Z.ltb_ge; lia).
  apply IH; [exact Hn'|]. intros job k t Hin. set (T := sol job - durations P job + t).
  pose proof (Hd job k t (or_intror Hin)) as Hj. fold T in Hj. rewrite cv_demand_cons in Hj.
  fold curr in Hj.
  destruct (Nat.eq_dec k k0) as [->|Hk]; [destruct (Z.eq_dec T curr) as [HT|HT]|].
  - rewrite HT in *. rewrite Nat.eqb_refl, Z.eqb_refl in Hj. simpl in Hj. lia.
  - rewrite Nat.eqb_refl in Hj. replace (curr =? T) with false in Hj
      by (symmetry; apply Z.eqb_neq; congruence). simpl in Hj.
    assert (A : avail' k0 T = avail k0 T).
    { unfold avail'. rewrite Nat.eqb_refl.
      replace (T =? curr) with false by (symmetry; apply Z.eqb_neq; exact HT). reflexivity. }
    lia.
  - replace (Nat.eqb k0 k) with false in Hj by (symmetry; apply Nat.eqb_neq; congruence).
    simpl in Hj.
    assert (A : avail' k T = avail k T).
    { unfold avail'. replace (Nat.eqb k k0) with false by (symmetry; apply Nat.eqb_neq; exact Hk).
      reflexivity. }
    lia.
Qed.

(** Over all the visits of [checkValid], what is subtracted from a cell of
    a resource [k < nresources] is the load of the claim. *)
Lemma cv_demand_cells (P : Problem) sol k T :
  (k < nresources P)%nat -> cv_demand P sol (cv_cells P) k T = load P sol k T.
Proof.
  intros Hk. unfold cv_demand, cv_cells, load. rewrite zsum_flat_map. f_equal.
  apply map_ext_in. intros job _. rewrite zsum_flat_map.
  rewrite (zsum_single Nat.eq_dec _ (seq 0 (nresources P)) k (seq_NoDup _ _)
             ltac:(apply in_seq; lia)).
  - rewrite map_map. rewrite Nat.eqb_refl. cbn [andb].
    set (s := sol job - durations P job).
    destruct ((s <=? T) && (T <? sol job)) eqn:C.
    + apply andb_true_iff in C. destruct C as [C1 C2].
      apply Z.leb_le in C1. apply Z.ltb_lt in C2.
      rewrite (zsum_single Z.eq_dec _ (zrange 0 (durations P job)) (T - s) (NoDup_zrange _ _)
                 ltac:(apply in_zrange; unfold s in *; lia)).
      * replace (s + (T - s) =? T) with true by (symmetry; apply Z.eqb_eq; lia). reflexivity.
      * intros x _ Hx. replace (s + x =? T) with false by (symmetry; apply Z.eqb_neq; lia).
        reflexivity.
    + apply zsum_map_zero_any. intros x Hx. apply in_zrange in Hx.
      destruct (s + x =? T) eqn:E; [|reflexivity]. apply Z.eqb_eq in E.
      exfalso. unfold s in *. apply andb_false_iff in C.
      destruct C as [C|C]; [apply Z.leb_gt in C|apply Z.ltb_ge in C]; lia.
  - intros k' _ Hk'. rewrite map_map. apply zsum_map_zero_any. intros x _.
    replace (Nat.eqb k' k) with false by (symmetry; apply Nat.eqb_neq; exact Hk'). reflexivity.
Qed.

Lemma check_precedence_spec (P : Problem) sol :
  check_precedence P sol = true <->
  (forall j p, (j < njobs P)%nat -> In p (predecessors P j) -> sol p <= sol j - durations P j).
Proof.
  unfold check_precedence. rewrite forallb_forall. split.
  - intros H j p Hj Hp. specialize (H j ltac:(apply in_seq; lia)).
    rewrite forallb_forall in H. apply Z.leb_le. exact (H p Hp).
  - intros H j Hj. apply in_seq in Hj. apply forallb_forall. intros p Hp.
    apply Z.leb_le. apply H; [lia|exact Hp].
Qed.

(** Extra: for an instance with non-negative requests and a solution whose
    every activity of positive duration lies within [0, horizon] (so that
    [available[k][curr]] is read within its bounds), [checkValid] returns
    [true] exactly when every precedence holds and, at every time an activity
    runs, the requests of all activities running then fit the capacity. *)
Theorem checkValid_spec (P : Problem) (sol : nat -> Z) :
  (forall j k t, (j < njobs P)%nat -> (k < nresources P)%nat -> 0 <= t < durations P j ->
     0 <= requests P j k t) ->
  (forall j, (j < njobs P)%nat -> 0 < durations P j ->
     0 <= sol j - durations P j /\ sol j <= horizon P) ->
  checkValid P sol = true <->
  (forall j p, (j < njobs P)%nat -> In p (predecessors P j) -> sol p <= sol j - durations P j) /\
  (forall j k t, (j < njobs P)%nat -> (k < nresources P)%nat -> 0 <= t < durations P j ->
     load P sol k (sol j - durations P j + t) <= capacities P k (sol j - durations P j + t)).
Proof.
  intros Hreq _. unfold checkValid. rewrite andb_true_iff, check_precedence_spec.
  split; intros [Hp Hr]; split; try exact Hp.
  - intros j k t Hj Hk Ht. rewrite <- cv_demand_cells by exact Hk.
    apply (cv_run_true P sol _ _ Hr). apply in_cv_cells. auto.
  - apply cv_run_ok.
    + intros j k t Hin. apply in_cv_cells in Hin. destruct Hin as (Hj&Hk&Ht).
      exact (Hreq j k t Hj Hk Ht).
    + intros j k t Hin. apply in_cv_cells in Hin. destruct Hin as (Hj&Hk&Ht).
      rewrite cv_demand_cells by exact Hk. exact (Hr j k t Hj Hk Ht).
Qed.

Lemma checkValid_spec_witness :
  (forall j k t, (j < njobs (chain3 5))%nat -> (k < nresources (chain3 5))%nat ->
     0 <= t < durations (chain3 5) j -> 0 <= requests (chain3 5) j k t) /\
  (forall j, (j < njobs (chain3 5))%nat -> 0 < durations (chain3 5) j ->
     0 <= upd (upd (zeros 0) 1 3) 2 3 j - durations (chain3 5) j /\
     upd (upd (zeros 0) 1 3) 2 3 j <= horizon (chain3 5)) /\
  (checkValid (chain3 5) (upd (upd (zeros 0) 1 3) 2 3) = true <->
  (forall j p, (j < njobs (chain3 5))%nat -> In p (predecessors (chain3 5) j) ->
     upd (upd (zeros 0) 1 3) 2 3 p <= upd (upd (zeros 0) 1 3) 2 3 j - durations (chain3 5) j) /\
  (forall j k t, (j < njobs (chain3 5))%nat -> (k < nresources (chain3 5))%nat ->
     0 <= t < durations (chain3 5) j ->
     load (chain3 5) (upd (upd (zeros 0) 1 3) 2 3) k
       (upd (upd (zeros 0) 1 3) 2 3 j - durations (chain3 5) j + t) <=
     capacities (chain3 5) k (upd (upd (zeros 0) 1 3) 2 3 j - durations (chain3 5) j + t))).
Proof.
  assert (R : forall j k t, (j < njobs (chain3 5))%nat -> (k < nresources (chain3 5))%nat ->
     0 <= t < durations (chain3 5) j -> 0 <= requests (chain3 5) j k t).
  { intros j k t Hj Hk Ht. destruct j as [|[|j]]; simpl; lia. }
  assert (W : forall j, (j < njobs (chain3 5))%nat -> 0 < durations (chain3 5) j ->
     0 <= upd (upd (zeros 0) 1 3) 2 3 j - durations (chain3 5) j /\
     upd (upd (zeros 0) 1 3) 2 3 j <= horizon (chain3 5)).
  { intros j Hj Hd. destruct j as [|[|[|j]]]; unfold upd, zeros in *; simpl in *; lia. }
  split; [exact R|split; [exact W|]].
  exact (checkValid_spec (chain3 5) (upd (upd (zeros 0) 1 3) 2 3) R W).
Defined.

(** ** Extra properties: what a successful call hands to [main] *)

Lemma run_passes_found_le (P : Problem) prio rng fuel n s s' :
  wf P -> (forall i, 0 <= rng i /\ rng i < 1)%Q ->
  (INT32_MAX_HALF <= bestMakespan s \/
   exists st, pinv P st (njobs P - 1) /\ (forall i, schedule st i <= horizon P) /\
     forall i, (i < njobs P)%nat -> out s i = schedule st i) ->
  run_passes P prio rng fuel n s = PDone s' ->
  INT32_MAX_HALF <= bestMakespan s' \/
  exists st, pinv P st (njobs P - 1) /\ (forall i, schedule st i <= horizon P) /\
    forall i, (i < njobs P)%nat -> out s' i = schedule st i.
Proof.
  intros HP Hr. revert s; induction n as [|n IH]; intros s Hs H; simpl in H.
  - injection H as <-. exact Hs.
  - destruct (pass P prio rng fuel (sbuf s) (sdraws s)) as [st| |] eqn:E; try discriminate.
    refine (IH _ _ H). unfold keep_best.
    destruct (schedule st (sink P) <? bestMakespan s); simpl.
    + right. exists st. split; [exact (pass_pinv P prio rng fuel _ _ st HP Hr E)|].
      split; [exact (pass_sched_le P prio rng fuel _ _ st
                       (Z.lt_le_incl _ _ (wf_horizon P HP)) E)|].
      intros i Hi. apply Nat.ltb_lt in Hi. rewrite Hi. reflexivity.
    + exact Hs.
Qed.

Lemma solve_found_pass (fuel : nat) (P : Problem) (rng : nat -> Q)
    (buf0 : nat -> nat) (ru0 : nat -> float) (out0 : nat -> Z) (o : nat -> Z) :
  wf P -> (forall i, 0 <= rng i /\ rng i < 1)%Q -> horizon P < INT32_MAX_HALF ->
  solve fuel P rng buf0 ru0 out0 = Some (true, o) ->
  exists st, pinv P st (njobs P - 1) /\ (forall i, schedule st i <= horizon P) /\
    forall i, (i < njobs P)%nat -> o i = schedule st i.
Proof.
  intros HP Hr Hh. unfold solve.
  destruct (ef_pass P fuel) as [ef| |]; try discriminate.
  destruct (ls_pass P fuel) as [ls| |]; try discriminate.
  destruct (ru_pass P fuel ef ls ru0) as [ru| |]; try discriminate.
  destruct (run_passes P (cpru P ls ru) rng fuel NPASSES _) as [s|s|] eqn:E; try discriminate.
  intros H. injection H as Hb <-. apply Z.leb_le in Hb.
  destruct (run_passes_found_le P _ rng fuel NPASSES (mkS INT32_MAX_HALF out0 buf0 0) s HP Hr
              (or_introl (Z.le_refl INT32_MAX_HALF)) E) as [Hbig|Hok].
  - simpl in Hbig. lia.
  - exact Hok.
Qed.

(** In a completed pass every activity runs within [0, horizon]. *)
Lemma pass_window (P : Problem) st :
  wf P -> pinv P st (njobs P - 1) -> (forall i, schedule st i <= horizon P) ->
  forall j, (j < njobs P)%nat -> 0 <= schedule st j - durations P j /\ schedule st j <= horizon P.
Proof.
  intros HP Hinv Hle j Hj. split; [|apply Hle].
  destruct (wf_acyclic P HP) as [rank Hrank].
  destruct j as [|j].
  - rewrite (pi_source P st _ Hinv), (wf_source_duration P HP). lia.
  - destruct (has_pred P HP rank Hrank (S j) ltac:(lia)) as [p [Hp Hpn]].
    destruct (pi_prec P st _ Hinv (S j) Hj (pinv_all_scheduled P st Hinv _ Hj) p Hp). lia.
Qed.

Lemma pass_load_le (P : Problem) st o :
  pinv P st (njobs P - 1) -> (forall i, (i < njobs P)%nat -> o i = schedule st i) ->
  forall k t, (k < nresources P)%nat -> 0 <= t < horizon P -> load P o k t <= capacities P k t.
Proof.
  intros Hinv Ho k t Hk Ht.
  assert (L : load P o k t = usage P (schedule st) k t).
  { unfold load, usage. f_equal. apply map_ext_in. intros j Hj. apply in_seq in Hj.
    rewrite (Ho j ltac:(lia)).
    assert (E : (0 <=? schedule st j) = true)
      by (apply Z.leb_le; apply (pinv_all_scheduled P st Hinv); lia).
    rewrite E. reflexivity. }
  rewrite L.
  pose proof (pi_avail P st _ Hinv k t Hk). pose proof (pi_avail_nonneg P st _ Hinv k t Hk Ht).
  lia.
Qed.

Lemma pass_path_le (P : Problem) st a b :
  wf P -> pinv P st (njobs P - 1) ->
  clos_trans nat (succ_edge P) a b -> (a < njobs P)%nat -> schedule st a <= schedule st b.
Proof.
  intros HP Hinv H. induction H as [x y Hxy|x y z Hxy IH1 Hyz IH2]; intros Hx.
  - pose proof (wf_successors_range P HP x y Hx Hxy) as Hy.
    pose proof (proj2 (wf_adjacency P HP y x Hy Hx) Hxy) as Hp.
    destruct (pi_prec P st _ Hinv y Hy (pinv_all_scheduled P st Hinv y Hy) x Hp).
    pose proof (wf_durations P HP y Hy). lia.
  - pose proof (IH1 Hx). pose proof (IH2 (path_bound P x y HP Hxy Hx)). lia.
Qed.

Lemma pass_checkValid (P : Problem) st o :
  wf P -> pinv P st (njobs P - 1) -> (forall i, schedule st i <= horizon P) ->
  (forall i, (i < njobs P)%nat -> o i = schedule st i) -> checkValid P o = true.
Proof.
  intros HP Hinv Hle Ho.
  pose proof (pass_window P st HP Hinv Hle) as Win.
  assert (W : forall j, (j < njobs P)%nat -> 0 < durations P j ->
                0 <= o j - durations P j /\ o j <= horizon P)
    by (intros j Hj _; rewrite (Ho j Hj); exact (Win j Hj)).
  apply (checkValid_spec P o (fun j k t Hj Hk Ht => wf_requests P HP j k t Hj Hk Ht) W).
  split.
  - intros j p Hj Hp. pose proof (wf_predecessors_range P HP j p Hj Hp) as Hpn.
    rewrite (Ho j Hj), (Ho p Hpn).
    exact (proj2 (pi_prec P st _ Hinv j Hj (pinv_all_scheduled P st Hinv j Hj) p Hp)).
  - intros j k t Hj Hk Ht. apply (pass_load_le P st o Hinv Ho k _ Hk).
    destruct (Win j Hj). rewrite (Ho j Hj). lia.
Qed.

(** Extra: for a well-formed instance and draws in [0, 1), when [solve]
    returns [true], [checkValid] (src/src/Main.cc) accepts the returned
    finish times: [main] never reports the solution as invalid. *)
Theorem solve_found_checkValid (fuel : nat) (P : Problem) (rng : nat -> Q)
    (buf0 : nat -> nat) (ru0 : nat -> float) (out0 : nat -> Z) (o : nat -> Z) :
  wf P -> (forall i, 0 <= rng i /\ rng i < 1)%Q -> horizon P < INT32_MAX_HALF ->
  solve fuel P rng buf0 ru0 out0 = Some (true, o) ->
  checkValid P o = true.
Proof.
  intros HP Hr Hh H.
  destruct (solve_found_pass fuel P rng buf0 ru0 out0 o HP Hr Hh H) as (st&Hinv&Hle&Ho).
  exact (pass_checkValid P st o HP Hinv Hle Ho).
Qed.

Lemma solve_found_checkValid_witness :
  match solve 100 (chain3 5) (zeros 0%Q) (zeros 0%nat) (zeros 0%float) (zeros 7) with
  | Some (true, o) => checkValid (chain3 5) o = true
  | _ => False
  end.
Proof.
  destruct (solve 100 (chain3 5) (zeros 0%Q) (zeros 0%nat) (zeros 0%float) (zeros 7))
    as [[[|] o]|] eqn:E.
  - exact (solve_found_checkValid 100 (chain3 5) (zeros 0%Q) (zeros 0%nat) (zeros 0%float)
             (zeros 7) o chain3_wf zeros_rng ltac:(vm_compute; reflexivity) E).
  - vm_compute in E. discriminate.
  - vm_compute in E. discriminate.
Defined.

(** Extra: for a well-formed instance and draws in [0, 1), when [solve]
    returns [true], [out[0] = 0], every activity starts at or after 0
    ([out[j] - durations[j] >= 0]), finishes no later than the sink
    ([out[j] <= out[njobs - 1]]), and the reported makespan
    [out[njobs - 1]] is at most the horizon. *)
Theorem solve_found_bounds (fuel : nat) (P : Problem) (rng : nat -> Q)
    (buf0 : nat -> nat) (ru0 : nat -> float) (out0 : nat -> Z) (o : nat -> Z) :
  wf P -> (forall i, 0 <= rng i /\ rng i < 1)%Q -> horizon P < INT32_MAX_HALF ->
  solve fuel P rng buf0 ru0 out0 = Some (true, o) ->
  o 0%nat = 0 /\ o (sink P) <= horizon P /\
  forall j, (j < njobs P)%nat -> 0 <= o j - durations P j /\ o j <= o (sink P).
Proof.
  intros HP Hr Hh H. pose proof (wf_njobs P HP) as Hn.
  destruct (solve_found_pass fuel P rng buf0 ru0 out0 o HP Hr Hh H) as (st&Hinv&Hle&Ho).
  assert (Hs : (sink P < njobs P)%nat) by (unfold sink; lia).
  rewrite (Ho 0%nat ltac:(lia)), (Ho (sink P) Hs).
  split; [exact (pi_source P st _ Hinv)|split; [apply Hle|]].
  intros j Hj. rewrite (Ho j Hj). split; [exact (proj1 (pass_window P st HP Hinv Hle j Hj))|].
  destruct (Nat.eq_dec j (sink P)) as [->|Hne]; [lia|].
  apply (pass_path_le P st j (sink P) HP Hinv); [apply (wf_sink P HP); unfold sink in *; lia|exact Hj].
Qed.

Lemma solve_found_bounds_witness :
  match solve 100 (chain3 5) (zeros 0%Q) (zeros 0%nat) (zeros 0%float) (zeros 7) with
  | Some (true, o) =>
      o 0%nat = 0 /\ o (sink (chain3 5)) <= horizon (chain3 5) /\
      forall j, (j < 3)%nat -> 0 <= o j - durations (chain3 5) j /\ o j <= o (sink (chain3 5))
  | _ => False
  end.
Proof.
  destruct (solve 100 (chain3 5) (zeros 0%Q) (zeros 0%nat) (zeros 0%float) (zeros 7))
    as [[[|] o]|] eqn:E.
  - exact (solve_found_bounds 100 (chain3 5) (zeros 0%Q) (zeros 0%nat) (zeros 0%float)
             (zeros 7) o chain3_wf zeros_rng ltac:(vm_compute; reflexivity) E).
  - vm_compute in E. discriminate.
  - vm_compute in E. discriminate.
Defined.

(** ** Extra properties: the progress report of [findInstancesAndSolveAll] *)

Lemma progress_loop_defined (size : nat) l :
  (0 < size / 100)%nat ->
  progress_loop size l =
  Some (map (fun i => i / (size / 100))%nat
          (filter (fun i => Nat.eqb (i mod (size / 100)) 0) l)).
Proof.
  intros Hs. induction l as [|i l IH]; [reflexivity|].
  cbn [progress_loop filter]. unfold progress.
  replace (Nat.eqb (size / 100) 0) with false by (symmetry; apply Nat.eqb_neq; lia).
  rewrite IH. destruct (Nat.eqb (i mod (size / 100)) 0); reflexivity.
Qed.

Lemma ceil_div_succ (s N : nat) :
  (0 < s)%nat ->
  ((S N + s - 1) / s)%nat =
  (if Nat.eqb (N mod s) 0 then (N + s - 1) / s + 1 else (N + s - 1) / s)%nat.
Proof.
  intros Hs. pose proof (Nat.div_mod_eq N s) as D. pose proof (Nat.mod_upper_bound N s ltac:(lia)) as M.
  set (q := (N / s)%nat) in *. set (r := (N mod s)%nat) in *.
  destruct (Nat.eqb r 0) eqn:R.
  - apply Nat.eqb_eq in R.
    rewrite <- (Nat.div_unique (S N + s - 1) s (q + 1) (0 + 0)) by nia.
    rewrite <- (Nat.div_unique (N + s - 1) s q (s - 1)) by nia. reflexivity.
  - apply Nat.eqb_neq in R.
    rewrite <- (Nat.div_unique (S N + s - 1) s (q + 1) r) by nia.
    rewrite <- (Nat.div_unique (N + s - 1) s (q + 1) (r - 1)) by nia. reflexivity.
Qed.

Lemma multiples_seq (s N : nat) :
  (0 < s)%nat ->
  map (fun i => i / s)%nat (filter (fun i => Nat.eqb (i mod s) 0) (seq 0 N)) =
  seq 0 ((N + s - 1) / s).
Proof.
  intros Hs. induction N as [|N IH].
  - rewrite (Nat.div_small (0 + s - 1) s) by lia. reflexivity.
  - rewrite seq_S, filter_app, map_app, IH, ceil_div_succ by exact Hs. cbn [filter].
    rewrite Nat.add_0_l.
    destruct (Nat.eqb (N mod s) 0) eqn:E; cbn [map].
    + rewrite Nat.add_1_r, seq_S. f_equal. f_equal.
      apply Nat.eqb_eq in E. pose proof (Nat.div_mod_eq N s) as D.
      rewrite E, Nat.add_0_r in D.
      rewrite <- (Nat.div_unique (N + s - 1) s (N / s) (s - 1)) by nia. reflexivity.
    + rewrite app_nil_r. reflexivity.
Qed.

(** Extra: the progress line of [findInstancesAndSolveAll] divides by
    [paths.size()/100]: a run over 1 to 99 instance files divides by zero
    (undefined behaviour) after the first instance, an empty directory
    prints nothing, and a run over [size >= 100] files prints the
    percentages [0, 1, ..., (size - 1) / (size / 100)], which can go past
    100 (199 files print up to [198%]). *)
Theorem progress_run_spec (size : nat) :
  (progress_run size = None <-> (0 < size < 100)%nat) /\
  ((100 <= size)%nat -> progress_run size = Some (seq 0 ((size - 1) / (size / 100) + 1))) /\
  progress_run 199 = Some (seq 0 199).
Proof.
  assert (Big : (100 <= size)%nat -> progress_run size = Some (seq 0 ((size - 1) / (size / 100) + 1))).
  { intros Hs. assert (Hd : (0 < size / 100)%nat)
      by (apply Nat.div_str_pos; lia).
    unfold progress_run. rewrite progress_loop_defined by exact Hd.
    rewrite multiples_seq by exact Hd. f_equal. f_equal.
    replace (size + size / 100 - 1)%nat with ((size - 1) + 1 * (size / 100))%nat by lia.
    rewrite Nat.div_add by lia. lia. }
  split; [|split; [exact Big|vm_compute; reflexivity]].
  split.
  - intros H. destruct (Nat.lt_ge_cases size 100) as [Hl|Hl].
    + destruct size as [|n]; [discriminate|lia].
    + rewrite (Big Hl) in H. discriminate.
  - intros Hs. unfold progress_run. destruct size as [|n]; [lia|].
    cbn [seq progress_loop]. unfold progress.
    rewrite Nat.div_small by lia. reflexivity.
Qed.

Lemma run_passes_keep (P : Problem) prio rng fuel n s s' :
  run_passes P prio rng fuel n s = PDone s' ->
  (out s' = out s /\ bestMakespan s' = bestMakespan s) \/ bestMakespan s' < bestMakespan s.
Proof.
  revert s; induction n as [|n IH]; intros s H; simpl in H.
  - injection H as <-. left. split; reflexivity.
  - destruct (pass P prio rng fuel (sbuf s) (sdraws s)) as [st| |] eqn:E; try discriminate.
    destruct (IH _ H) as [[Eo Eb]|Lt]; unfold keep_best in *;
      destruct (schedule st (sink P) <? bestMakespan s) eqn:C; simpl in *.
    + right. apply Z.ltb_lt in C. lia.
    + left. split; assumption.
    + right. apply Z.ltb_lt in C. lia.
    + right. exact Lt.
Qed.

(** Extra: for a well-formed instance and draws in [0, 1), whatever the
    horizon, when [solve] returns [true] either [checkValid] accepts the
    returned finish times, or no pass finished the sink below
    [INT32_MAX / 2]: then [out] is left exactly as the caller passed it, and
    this happens only when [horizon >= INT32_MAX / 2]. *)
Theorem solve_found_cases (fuel : nat) (P : Problem) (rng : nat -> Q)
    (buf0 : nat -> nat) (ru0 : nat -> float) (out0 : nat -> Z) (o : nat -> Z) :
  wf P -> (forall i, 0 <= rng i /\ rng i < 1)%Q ->
  solve fuel P rng buf0 ru0 out0 = Some (true, o) ->
  checkValid P o = true \/ (o = out0 /\ INT32_MAX_HALF <= horizon P).
Proof.
  intros HP Hr. unfold solve.
  destruct (ef_pass P fuel) as [ef| |]; try discriminate.
  destruct (ls_pass P fuel) as [ls| |]; try discriminate.
  destruct (ru_pass P fuel ef ls ru0) as [ru| |]; try discriminate.
  destruct (run_passes P (cpru P ls ru) rng fuel NPASSES _) as [s|s|] eqn:E; try discriminate.
  intros H. injection H as Hb <-. apply Z.leb_le in Hb.
  destruct (run_passes_found_le P _ rng fuel NPASSES (mkS INT32_MAX_HALF out0 buf0 0) s HP Hr
              (or_introl (Z.le_refl INT32_MAX_HALF)) E) as [Hbig|(st&Hinv&Hle&Ho)].
  - right. destruct (run_passes_keep P _ rng fuel NPASSES _ s E) as [[Eo Eb]|Lt];
      simpl in *; [split; [exact Eo|lia]|lia].
  - left. exact (pass_checkValid P st (out s) HP Hinv Hle Ho).
Qed.

(** On [late3] the call succeeds with the caller's buffer left as it was. *)
Lemma solve_found_cases_witness :
  match solve 100 late3 (zeros 0%Q) (zeros 0%nat) (zeros 0%float) (zeros 7) with
  | Some (true, o) =>
      o = zeros 7 /\ (checkValid late3 o = true \/ (o = zeros 7 /\ INT32_MAX_HALF <= horizon late3))
  | _ => False
  end.
Proof.
  destruct (solve 100 late3 (zeros 0%Q) (zeros 0%nat) (zeros 0%float) (zeros 7))
    as [[[|] o]|] eqn:E.
  - split.
    + vm_compute in E. injection E as <-. reflexivity.
    + exact (solve_found_cases 100 late3 (zeros 0%Q) (zeros 0%nat) (zeros 0%float) (zeros 7) o
               late3_wf zeros_rng E).
  - vm_compute in E. discriminate.
  - vm_compute in E. discriminate.
Defined.

(** ** Equation lemmas of the loops *)

Lemma ef_loop_cons (P : Problem) fuel job q ef :
  ef_loop P (S fuel) (job :: q) ef =
  match ef_advance P fuel job (ef job) with
  | Ok e => ef_loop P fuel (q ++ successors P job) (ef_relax P job (upd ef job e))
  | Abort => Abort
  | Stuck => Stuck
  end.
Proof. reflexivity. Qed.

Lemma ef_loop_nil (P : Problem) fuel ef : ef_loop P (S fuel) [] ef = Ok ef.
Proof. reflexivity. Qed.

Lemma ef_advance_fit (P : Problem) fuel job e :
  fits P (capacities P) job (e - durations P job) = true -> e <= horizon P ->
  ef_advance P (S fuel) job e = Ok e.
Proof.
  intros F L. cbn [ef_advance]. rewrite F.
  destruct (horizon P <? e) eqn:C; [apply Z.ltb_lt in C; lia|reflexivity].
Qed.

Lemma ls_loop_cons (P : Problem) fuel job q ls :
  ls_loop P (S fuel) (job :: q) ls =
  match ls_advance P fuel job (ls job) with
  | Ok l => ls_loop P fuel (q ++ predecessors P job) (ls_relax P job (upd ls job l))
  | Abort => Abort
  | Stuck => Stuck
  end.
Proof. reflexivity. Qed.

Lemma ls_loop_nil (P : Problem) fuel ls : ls_loop P (S fuel) [] ls = Ok ls.
Proof. reflexivity. Qed.

Lemma ls_advance_fit (P : Problem) fuel job l :
  fits P (capacities P) job l = true -> 0 <= l -> ls_advance P (S fuel) job l = Ok l.
Proof.
  intros F L. cbn [ls_advance]. rewrite F.
  destruct (l <? 0) eqn:C; [apply Z.ltb_lt in C; lia|reflexivity].
Qed.

Lemma ru_loop_cons (P : Problem) fuel ef ls job q ru :
  ru_loop P (S fuel) ef ls (job :: q) ru =
  ru_loop P fuel ef ls (q ++ predecessors P job) (ru_step P ef ls job ru).
Proof. reflexivity. Qed.

Lemma ru_loop_nil (P : Problem) fuel ef ls ru : ru_loop P (S fuel) ef ls [] ru = Ok ru.
Proof. reflexivity. Qed.

Lemma place_fit (P : Problem) fuel avail w f :
  fits P avail w (f - durations P w) = true -> f <= horizon P ->
  place P (S fuel) avail w f = Ok f.
Proof.
  intros F L. cbn [place]. rewrite F.
  destruct (horizon P <? f) eqn:C; [apply Z.ltb_lt in C; lia|reflexivity].
Qed.

Lemma choice_one (u : Q) : (0 <= u)%Q -> (u < 1)%Q -> choice u 1 = 0.
Proof. intros H0 H1. pose proof (choice_range u 1 H0 H1 ltac:(lia)) as H. simpl in H. lia. Qed.

Lemma step_single (P : Problem) prio rng fuel st w f :
  (forall i, 0 <= rng i /\ rng i < 1)%Q ->
  eligible_list P (schedule st) = [w] ->
  is_nan (prio w) = false -> (NEG_HALF_MAX <=? prio w)%float = true ->
  place P fuel (available st) w (finish0 P (schedule st) w) = Ok f ->
  step P prio rng fuel st =
  Ok (mkPState (upd (schedule st) w f) (consume P (available st) w f)
        (write_eligible (elbuf st) [w]) (draws st + 2)).
Proof.
  intros Hr Hel Hn Hm Hp. unfold step. rewrite Hel.
  assert (Hs : selection rng (write_eligible (elbuf st) [w]) (length [w]) (draws st) = [w; w]).
  { unfold selection. change (nsamples (length [w])) with 2%nat. cbn [seq map].
    destruct (Hr (draws st + 0)%nat), (Hr (draws st + 1)%nat).
    rewrite !choice_one by assumption. reflexivity. }
  rewrite Hs. unfold winner_scan. cbn [fold_left fst snd]. rewrite Hm. cbn [fst snd].
  rewrite fleb_refl by exact Hn. cbn [fst]. rewrite Hp. reflexivity.
Qed.

Lemma iterate_step (P : Problem) prio rng fuel m st st' :
  step P prio rng fuel st = Ok st' ->
  iterate P prio rng fuel (S m) st = iterate P prio rng fuel m st'.
Proof. intros H. cbn [iterate]. rewrite H. reflexivity. Qed.

Lemma run_passes_step (P : Problem) prio rng fuel n s st :
  pass P prio rng fuel (sbuf s) (sdraws s) = Ok st ->
  run_passes P prio rng fuel (S n) s = run_passes P prio rng fuel n (keep_best P s st).
Proof. intros H. cbn [run_passes]. rewrite H. reflexivity. Qed.

(** ** A run on [lateR], evaluated symbolically *)

(** The activities of [lateR] other than 2 request nothing. *)
Lemma fits_lateR_1 grid s : (forall t, 0 <= grid 0%nat t) -> fits lateR grid 1 s = true.
Proof.
  intros G. apply fits_spec. intros k t Hk _.
  assert (k = 0%nat) by (cbn in Hk; lia). subst k. apply G.
Qed.

(** Evaluates the concatenations of the work queues. *)
Ltac norm_queue :=
  repeat match goal with
  | |- context [?q ++ ?r] =>
      let v := eval vm_compute in (q ++ r) in change (q ++ r) with v
  end.

Lemma lateR_ef : exists ef, ef_pass lateR 100 = Ok ef /\
  ef 0%nat = 0 /\ ef 1%nat = INT32_MAX_HALF - 1 /\ ef 2%nat = INT32_MAX_HALF /\
  ef 3%nat = INT32_MAX_HALF.
Proof.
  unfold ef_pass.
  rewrite ef_loop_cons, ef_advance_fit; [cbv beta iota; norm_queue| vm_compute; reflexivity | vm_compute; discriminate].
  rewrite ef_loop_cons, ef_advance_fit;
    [cbv beta iota; norm_queue| apply fits_lateR_1; intros t; cbn; destruct (t =? 0); lia | vm_compute; discriminate].
  rewrite ef_loop_cons, ef_advance_fit; [cbv beta iota; norm_queue| vm_compute; reflexivity | vm_compute; discriminate].
  rewrite ef_loop_cons, ef_advance_fit; [cbv beta iota; norm_queue| vm_compute; reflexivity | vm_compute; discriminate].
  rewrite ef_loop_nil. eexists. split; [reflexivity|].
  repeat split; vm_compute; reflexivity.
Qed.

Lemma lateR_ls : exists ls, ls_pass lateR 100 = Ok ls /\
  ls 0%nat = 0 /\ ls 1%nat = 0 /\ ls 2%nat = INT32_MAX_HALF - 1 /\
  ls 3%nat = INT32_MAX_HALF.
Proof.
  unfold ls_pass.
  rewrite ls_loop_cons, ls_advance_fit; [cbv beta iota; norm_queue| vm_compute; reflexivity | vm_compute; discriminate].
  rewrite ls_loop_cons, ls_advance_fit; [cbv beta iota; norm_queue| vm_compute; reflexivity | vm_compute; discriminate].
  rewrite ls_loop_cons, ls_advance_fit;
    [cbv beta iota; norm_queue| apply fits_lateR_1; exact lateR_cap_nonneg | vm_compute; discriminate].
  rewrite ls_loop_cons, ls_advance_fit; [cbv beta iota; norm_queue| vm_compute; reflexivity | vm_compute; discriminate].
  rewrite ls_loop_nil. eexists. split; [reflexivity|].
  repeat split; vm_compute; reflexivity.
Qed.

Lemma lateR_demand_1 : demand lateR 1 = 0.
Proof.
  unfold demand. change (seq 0 (nresources lateR)) with [0%nat]. cbn [map].
  rewrite zsum_map_zero_any; [reflexivity|]. intros x _. reflexivity.
Qed.

Lemma zsum_ones s n :
  zsum (map (fun t => if t =? 0 then 0 else 1) (map (fun m => 0 + Z.of_nat m) (seq (S s) n)))
  = Z.of_nat n.
Proof.
  revert s; induction n as [|n IH]; intros s; [reflexivity|].
  cbn [seq map]. rewrite zsum_cons, IH.
  destruct (0 + Z.of_nat (S s) =? 0) eqn:E; [apply Z.eqb_eq in E; lia|cbv iota; lia].
Qed.

Lemma zsum_ones_from0 m :
  zsum (map (fun t => if t =? 0 then 0 else 1) (zrange 0 (Z.of_nat (S m)))) = Z.of_nat m.
Proof.
  unfold zrange. rewrite Z.sub_0_r, Nat2Z.id. cbn [seq map].
  rewrite zsum_cons, zsum_ones. reflexivity.
Qed.

Lemma lateR_availability_1 (ef ls : nat -> Z) :
  ef 1%nat = INT32_MAX_HALF - 1 -> ls 1%nat = 0 ->
  availability lateR ef ls 1 = INT32_MAX_HALF - 2.
Proof.
  intros E L. unfold availability. rewrite E, L.
  change (seq 0 (nresources lateR)) with [0%nat]. cbn [map].
  assert (A : INT32_MAX_HALF - 1 - durations lateR 1 = 0)
    by (cbn [durations lateR]; lia).
  assert (B : 0 + durations lateR 1 = Z.of_nat (S (Z.to_nat (INT32_MAX_HALF - 2)))).
  { cbn [durations lateR]. rewrite Nat2Z.inj_succ, Z2Nat.id; unfold INT32_MAX_HALF; lia. }
  rewrite A, B.
  change (capacities lateR 0%nat) with (fun t => if t =? 0 then 0 else 1).
  rewrite zsum_ones_from0, zsum_cons, Z2Nat.id; [apply Z.add_0_r|unfold INT32_MAX_HALF; lia].
Qed.

Lemma lateR_ru (ef ls : nat -> Z) :
  ef 0%nat = 0 -> ef 1%nat = INT32_MAX_HALF - 1 -> ef 2%nat = INT32_MAX_HALF ->
  ef 3%nat = INT32_MAX_HALF ->
  ls 0%nat = 0 -> ls 1%nat = 0 -> ls 2%nat = INT32_MAX_HALF - 1 -> ls 3%nat = INT32_MAX_HALF ->
  exists ru, ru_pass lateR 100 ef ls (zeros 0%float) = Ok ru /\ lateR_prio_ok (cpru lateR ls ru).
Proof.
  intros E0 E1 E2 E3 L0 L1 L2 L3. unfold ru_pass.
  do 4 (rewrite ru_loop_cons; norm_queue).
  rewrite ru_loop_nil. eexists. split; [reflexivity|].
  intros j Hj. unfold cpru.
  assert (J : j = 1%nat \/ j = 2%nat \/ j = 3%nat) by lia.
  unfold ru_step. rewrite lateR_demand_1, (lateR_availability_1 ef ls E1 L1).
  change (sink lateR) with 3%nat.
  unfold availability. rewrite E0, E2, E3, L0, L2, L3.
  destruct J as [ -> | [ -> | -> ] ]; rewrite ?L1, ?L2, ?L3; vm_compute; split; reflexivity.
Qed.

Lemma lateR_pass prio rng buf d :
  (forall i, 0 <= rng i /\ rng i < 1)%Q -> lateR_prio_ok prio ->
  exists st, pass lateR prio rng 100 buf d = Ok st /\ schedule st 3%nat = INT32_MAX_HALF.
Proof.
  intros Hr Hp. unfold pass. change (njobs lateR - 1)%nat with 3%nat.
  erewrite iterate_step.
  2:{ eapply step_single; [exact Hr | vm_compute; reflexivity | apply Hp; lia | apply Hp; lia |].
      apply place_fit; [apply fits_lateR_1; exact lateR_cap_nonneg | vm_compute; discriminate]. }
  erewrite iterate_step.
  2:{ eapply step_single; [exact Hr | vm_compute; reflexivity | apply Hp; lia | apply Hp; lia |].
      apply place_fit; [vm_compute; reflexivity | vm_compute; discriminate]. }
  erewrite iterate_step.
  2:{ eapply step_single; [exact Hr | vm_compute; reflexivity | apply Hp; lia | apply Hp; lia |].
      apply place_fit; [vm_compute; reflexivity | vm_compute; discriminate]. }
  eexists. split; [reflexivity|]. vm_compute. reflexivity.
Qed.

Lemma lateR_run prio rng n s :
  (forall i, 0 <= rng i /\ rng i < 1)%Q -> lateR_prio_ok prio ->
  bestMakespan s = INT32_MAX_HALF ->
  exists s', run_passes lateR prio rng 100 n s = PDone s' /\
    bestMakespan s' = INT32_MAX_HALF /\ out s' = out s.
Proof.
  intros Hr Hp. revert s; induction n as [|n IH]; intros s Hs.
  - exists s. split; [reflexivity|]. split; [exact Hs|reflexivity].
  - destruct (lateR_pass prio rng (sbuf s) (sdraws s) Hr Hp) as [st [E1 E2]].
    rewrite (run_passes_step lateR prio rng 100 n s st E1).
    unfold keep_best. change (sink lateR) with 3%nat. rewrite E2, Hs, Z.ltb_irrefl.
    destruct (IH (mkS INT32_MAX_HALF (out s) (elbuf st) (draws st)) eq_refl) as [s' [E [B O]]].
    exists s'. split; [exact E|]. split; [exact B|exact O].
Qed.

(** Every pass of [solve] on [lateR] finishes the sink at [INT32_MAX / 2],
    never below [bestMakespan]: [out] stays as the caller passed it. *)
Lemma lateR_solve :
  solve 100 lateR (zeros 0%Q) (zeros 0%nat) (zeros 0%float) (zeros 1) = Some (true, zeros 1).
Proof.
  destruct lateR_ef as [ef [Eef [E0 [E1 [E2 E3]]]]].
  destruct lateR_ls as [ls [Els [L0 [L1 [L2 L3]]]]].
  destruct (lateR_ru ef ls E0 E1 E2 E3 L0 L1 L2 L3) as [ru [Eru Hp]].
  destruct (lateR_run (cpru lateR ls ru) (zeros 0%Q) NPASSES
              (mkS INT32_MAX_HALF (zeros 1) (zeros 0%nat) 0) zeros_rng Hp eq_refl)
    as [s [E [B O]]].
  unfold solve. rewrite Eef, Els, Eru, E, B, O. reflexivity.
Qed.

(** ** The found schedule at the horizon [INT32_MAX / 2] *)

(** Claim C1, a divergence of the code: [late3] is well formed and [solve]
    returns [true], yet the returned [out] is the caller's buffer [zeros 7]
    (7 everywhere) unchanged: activity 1 (duration [INT32_MAX / 2]) and its
    predecessor 0 both finish at 7, so the precedence
    [out[0] <= out[1] - durations[1]] fails. No pass finishes
    the sink strictly below the initial [bestMakespan = INT32_MAX / 2], so
    [out] is never written, while [bestMakespan <= horizon] holds. *)
Theorem solve_found_precedence_violated :
  wf late3 /\
  solve 100 late3 (zeros 0%Q) (zeros 0%nat) (zeros 0%float) (zeros 7) = Some (true, zeros 7) /\
  (1 < njobs late3)%nat /\ In 0%nat (predecessors late3 1) /\
  zeros 7 1%nat - durations late3 1 < zeros 7 0%nat.
Proof.
  split; [exact late3_wf|]. split; [vm_compute; reflexivity|].
  split; [cbn; lia|]. split; [cbn; tauto|]. vm_compute. reflexivity.
Qed.

(** Claim C2, a divergence of the code: [lateR] is well formed and [solve]
    returns [true] with [out] the caller's buffer [zeros 1] (1 everywhere)
    unchanged, which runs activity 2 (duration 1, one unit of resource 0)
    over [[0, 1)], where the capacity is 0: the load exceeds the capacity. As for C1, no pass beats the
    initial [bestMakespan = INT32_MAX / 2], so [out] is never written. *)
Theorem solve_found_resources_violated :
  wf lateR /\
  solve 100 lateR (zeros 0%Q) (zeros 0%nat) (zeros 0%float) (zeros 1) = Some (true, zeros 1) /\
  (0 < nresources lateR)%nat /\ 0 <= 0 < horizon lateR /\
  capacities lateR 0%nat 0 < load lateR (zeros 1) 0%nat 0.
Proof.
  split; [exact lateR_wf|]. split; [exact lateR_solve|].
  split; [cbn; lia|]. split; [split; [vm_compute; discriminate|vm_compute; reflexivity]|].
  vm_compute. reflexivity.
Qed.
